(** * Pure: SQL completion provider and query interface

    A shallow embedding of
    - [frontend/src/components/monaco-editor.tsx]: the FROM/JOIN reference
      scan [parseSqlAndFindTableNameAndAliases] and the completion provider
      [provideCompletionItems];
    - [frontend/src/components/query-interface.tsx]: the handlers
      [handleQuery] and [handleKeyDown] of the [QueryInterface] component.

    JavaScript strings are sequences of UTF-16 code units; regular
    expressions are given the backtracking semantics of ECMA-262
    (continuation-passing matchers); the [Map] of aliases is a [gmap]; the
    React state is a record threaded through the handlers. *)

From Stdlib Require Import ZArith NArith Lia String Ascii.
From stdpp Require Import gmap list.

Local Open Scope Z_scope.
Local Open Scope nat_scope.

(** ** JavaScript strings *)

(** A UTF-16 code unit, and a string of them. *)
Abbreviation char := N (only parsing).
Abbreviation jsstring := (list N) (only parsing).

(** Code units of an ASCII literal. *)
Definition str (s : string) : jsstring :=
  List.map N_of_ascii (list_ascii_of_string s).

Definition chr (a : ascii) : char := N_of_ascii a.

(** White space and line terminators: the class [\s], also what
    [String.prototype.trim] strips. *)
Definition is_space (c : char) : bool :=
  ((9 <=? c) && (c <=? 13) || (c =? 32) || (c =? 160) || (c =? 5760)
   || (8192 <=? c) && (c <=? 8202) || (c =? 8232) || (c =? 8233)
   || (c =? 8239) || (c =? 8287) || (c =? 12288) || (c =? 65279))%N.

(** The class [\w]: [A-Za-z0-9_]. *)
Definition is_word (c : char) : bool :=
  ((48 <=? c) && (c <=? 57) || (65 <=? c) && (c <=? 90) || (c =? 95)
   || (97 <=? c) && (c <=? 122))%N.

Fixpoint takeWhile {A} (p : A -> bool) (l : list A) : list A :=
  match l with
  | [] => []
  | a :: l' => if p a then a :: takeWhile p l' else []
  end.

Fixpoint dropWhile {A} (p : A -> bool) (l : list A) : list A :=
  match l with
  | [] => []
  | a :: l' => if p a then dropWhile p l' else l
  end.

(** [String.prototype.trim]. *)
Definition trimStart (s : jsstring) : jsstring := dropWhile is_space s.
Definition trimEnd (s : jsstring) : jsstring :=
  rev (dropWhile is_space (rev s)).
Definition trim (s : jsstring) : jsstring := trimEnd (trimStart s).

(** [String.prototype.split] with a separator of one code unit. *)
Fixpoint split (sep : char) (s : jsstring) : list jsstring :=
  match s with
  | [] => [[]]
  | c :: s' =>
      if (c =? sep)%N then [] :: split sep s'
      else match split sep s' with
           | w :: ws => (c :: w) :: ws
           | [] => [[c]]
           end
  end.

(** [String.prototype.substring] on indices [a <= b]. *)
Definition substring (a b : nat) (s : jsstring) : jsstring :=
  take (b - a) (drop a s).

(** Truthiness of a possibly undefined string: [undefined], [null] and the
    empty string are falsy. *)
Definition truthy (v : option jsstring) : bool :=
  match v with
  | Some (_ :: _) => true
  | _ => false
  end.

(** ** Regular expressions (ECMA-262 backtracking semantics) *)

Module RegExp.

Inductive regex : Type :=
| Empty                          (* the empty pattern *)
| Chr (p : char -> bool)         (* a character set, or one character *)
| WordB                          (* \b *)
| Eoi                            (* $ without the m flag *)
| Seq (r1 r2 : regex)            (* r1 r2 *)
| Alt (r1 r2 : regex)            (* r1|r2 *)
| Star (r : regex)               (* r*  greedy *)
| Opt (r : regex)                (* r?  greedy *)
| Group (n : nat) (r : regex).   (* the n-th capturing parentheses *)

(** [r+] is [r r*] (the bodies quantified with [+] below hold no group). *)
Definition Plus (r : regex) : regex := Seq r (Star r).

(** Capturing parentheses inside a pattern, and the least number of code
    units a match of it consumes. *)
Fixpoint groups (r : regex) : list nat :=
  match r with
  | Empty | Chr _ | WordB | Eoi => []
  | Seq r1 r2 | Alt r1 r2 => groups r1 ++ groups r2
  | Star r' | Opt r' => groups r'
  | Group n r' => n :: groups r'
  end.

Fixpoint minlen (r : regex) : nat :=
  match r with
  | Empty | WordB | Eoi => 0
  | Chr _ => 1
  | Seq r1 r2 => minlen r1 + minlen r2
  | Alt r1 r2 => Nat.min (minlen r1) (minlen r2)
  | Star _ | Opt _ => 0
  | Group _ r' => minlen r'
  end.

(** A match state: the index reached and the capture ranges. *)
Record MatchState := mkState {
  endIndex : nat;
  captures : nat -> option (nat * nat)
}.

Definition Continuation := MatchState -> option MatchState.

Definition advance (x : MatchState) : MatchState :=
  mkState (S (endIndex x)) (captures x).

Definition set_capture (n : nat) (range : nat * nat) (x : MatchState)
  : MatchState :=
  mkState (endIndex x)
          (fun i => if Nat.eqb i n then Some range else captures x i).

(** A quantifier resets the captures of its body before each iteration. *)
Definition clear_captures (gs : list nat) (x : MatchState) : MatchState :=
  mkState (endIndex x)
          (fun i => if existsb (Nat.eqb i) gs then None else captures x i).

Definition is_word_at (input : jsstring) (i : nat) : bool :=
  match input !! i with
  | Some c => is_word c
  | None => false
  end.

(** [\b] holds where exactly one of the two neighbours is a word
    character. *)
Definition word_boundary (input : jsstring) (e : nat) : bool :=
  let a := match e with 0 => false | S e' => is_word_at input e' end in
  let b := is_word_at input e in
  xorb a b.

(** A greedy quantifier without upper bound: [m] is the matcher of the
    body, [gs] its capturing parentheses, [n] the number of iterations
    left. An iteration that consumes nothing is rejected, so there is at
    most one iteration per remaining code unit. *)
Fixpoint RepeatMatcher (m : MatchState -> Continuation -> option MatchState)
         (gs : list nat) (c : Continuation) (n : nat) (x : MatchState)
  : option MatchState :=
  match n with
  | 0 => c x
  | S n' =>
      let d := fun y =>
        if Nat.eqb (endIndex y) (endIndex x) then None
        else RepeatMatcher m gs c n' y in
      match m (clear_captures gs x) d with
      | Some z => Some z
      | None => c x
      end
  end.

(** The matcher of a pattern: tries the alternatives of [r] from [x] in
    priority order and hands each end state to the continuation [c] until
    one succeeds. *)
Fixpoint matcher (input : jsstring) (r : regex) (x : MatchState)
         (c : Continuation) {struct r} : option MatchState :=
  match r with
  | Empty => c x
  | Chr p =>
      match input !! endIndex x with
      | Some ch => if p ch then c (advance x) else None
      | None => None
      end
  | WordB => if word_boundary input (endIndex x) then c x else None
  | Eoi => if Nat.eqb (endIndex x) (length input) then c x else None
  | Seq r1 r2 => matcher input r1 x (fun y => matcher input r2 y c)
  | Alt r1 r2 =>
      match matcher input r1 x c with
      | Some z => Some z
      | None => matcher input r2 x c
      end
  | Star r' =>
      RepeatMatcher (matcher input r') (groups r') c
                    (length input - endIndex x) x
  | Opt r' =>
      let d := fun y =>
        if Nat.eqb (endIndex y) (endIndex x) then None else c y in
      match matcher input r' (clear_captures (groups r') x) d with
      | Some z => Some z
      | None => c x
      end
  | Group n r' =>
      matcher input r' x
              (fun y => c (set_capture n (endIndex x, endIndex y) y))
  end.

Definition accept : Continuation := fun y => Some y.

Definition initial (i : nat) : MatchState := mkState i (fun _ => None).

(** The search of [RegExpBuiltinExec]: the start positions [i, i+1, ...]
    are tried in turn, [n] of them being left. The result carries the
    index of the match. *)
Fixpoint search (input : jsstring) (r : regex) (n i : nat)
  : option (nat * MatchState) :=
  match n with
  | 0 => None
  | S n' =>
      match matcher input r (initial i) accept with
      | Some z => Some (i, z)
      | None => search input r n' (S i)
      end
  end.

(** [exec] from [lastIndex]: fails at once past the end of the input,
    otherwise tries every start position up to [length input]. *)
Definition exec (r : regex) (input : jsstring) (lastIndex : nat)
  : option (nat * MatchState) :=
  if Nat.ltb (length input) lastIndex then None
  else search input r (S (length input - lastIndex)) lastIndex.

(** [match[n]]: the captured substring, or undefined. *)
Definition group (input : jsstring) (m : nat * MatchState) (n : nat)
  : option jsstring :=
  match captures (snd m) n with
  | Some (a, b) => Some (substring a b input)
  | None => None
  end.

(** [r.test(s)] for a regular expression without the g flag. *)
Definition test (r : regex) (input : jsstring) : bool :=
  match exec r input 0 with
  | Some _ => true
  | None => false
  end.

(** Character sets. Under the i flag a letter of the pattern matches
    the code units with the same canonical (upper-case) form; a code unit
    outside ASCII never canonicalizes to an ASCII one, which leaves the
    two ASCII cases of the letter. *)
Definition lit (a : ascii) : regex := Chr (N.eqb (chr a)).

Definition upper (c : char) : char :=
  if ((97 <=? c) && (c <=? 122))%N then (c - 32)%N else c.

Definition lit_i (a : ascii) : regex :=
  Chr (fun ch => (ch <? 128)%N && N.eqb (upper ch) (upper (chr a))).

Fixpoint word (s : string) : regex :=
  match s with
  | EmptyString => Empty
  | String a s' => Seq (lit a) (word s')
  end.

Fixpoint word_i (s : string) : regex :=
  match s with
  | EmptyString => Empty
  | String a s' => Seq (lit_i a) (word_i s')
  end.

End RegExp.

(** ** monaco-editor.tsx: the FROM/JOIN reference scan *)

Import RegExp.

Notation "r1 >> r2" := (Seq r1 r2) (at level 60, right associativity).

Definition space : regex := Chr is_space.

(** [[^\s.]] and [[^\s,]] *)
Definition not_space_dot : regex :=
  Chr (fun c => negb (is_space c || N.eqb c (chr "."))).
Definition not_space_comma : regex :=
  Chr (fun c => negb (is_space c || N.eqb c (chr ","))).

(** [([^\s.]+(?:\.[^\s.]+)?)] *)
Definition table_pattern : regex :=
  Group 1 (Plus not_space_dot >> Opt (lit "." >> Plus not_space_dot)).

(** [\s*(?:AS)?\s*([^\s,]+)?] *)
Definition alias_pattern : regex :=
  Star space >> Opt (word_i "AS") >> Star space
  >> Opt (Group 2 (Plus not_space_comma)).

(** [/\b(?:FROM|JOIN)\s+([^\s.]+(?:\.[^\s.]+)?)\s*(?:AS)?\s*([^\s,]+)?/gi] *)
Definition from_join_regex : regex :=
  WordB >> Alt (word_i "FROM") (word_i "JOIN") >> Plus space
  >> table_pattern >> alias_pattern.

(** [/\(/] *)
Definition paren_regex : regex := lit "(".

(** [/on|where|inner|left|right|join/] *)
Definition reserved_regex : regex :=
  Alt (word "on") (Alt (word "where") (Alt (word "inner")
    (Alt (word "left") (Alt (word "right") (word "join"))))).

Record TableRef := mkTableRef {
  table_name : jsstring;
  alias : jsstring
}.

(** [v || d] for a possibly undefined string [v]. *)
Definition or_else (v : option jsstring) (d : jsstring) : jsstring :=
  match v with
  | Some (c :: s) => c :: s
  | _ => d
  end.

(** The body of the [while (true)] loop for one match [m]: the tables
    after it. [match[1]] is read as a string. *)
Definition push_match (sql : jsstring) (m : nat * MatchState)
           (tables : list TableRef) : option (list TableRef) :=
  match group sql m 1 with
  | None => None
  | Some table_name =>
      if negb (test paren_regex table_name) then
        let alias := group sql m 2 in
        let alias :=
          match alias with
          | Some a => if truthy alias && test reserved_regex a then None
                      else alias
          | None => None
          end in
        Some (tables ++ [mkTableRef table_name (or_else alias table_name)])
      else Some tables
  end.

(** The loop, [n] iterations being allowed; [lastIndex] is the property of
    the g-flagged regular expression, which [exec] sets to the end of each
    match. *)
Fixpoint scan_loop (n : nat) (sql : jsstring) (lastIndex : nat)
         (tables : list TableRef) : option (list TableRef) :=
  match n with
  | 0 => None
  | S n' =>
      match exec from_join_regex sql lastIndex with
      | None => Some tables
      | Some m =>
          match push_match sql m tables with
          | Some tables' => scan_loop n' sql (endIndex (snd m)) tables'
          | None => None
          end
      end
  end.

Definition parseSqlAndFindTableNameAndAliases (sql : jsstring)
  : option (list TableRef) :=
  scan_loop (S (length sql)) sql 0 [].

(** ** monaco-editor.tsx: the completion provider *)

Record Position := mkPosition {
  lineNumber : nat;
  column : nat
}.

Record IRange := mkRange {
  startLineNumber : nat;
  startColumn : nat;
  endLineNumber : nat;
  endColumn : nat
}.

Record IWordAtPosition := mkWord {
  word_text : jsstring;
  word_startColumn : nat;
  word_endColumn : nat
}.

(** The methods of the editor's text model that the provider calls. *)
Record ITextModel := mkModel {
  getValue : jsstring;
  getValueInRange : IRange -> jsstring;
  getWordUntilPosition : Position -> IWordAtPosition
}.

Inductive CompletionItemKind := Field | Keyword | Snippet.

Inductive CompletionItemInsertTextRule := KeepWhitespace | InsertAsSnippet.

Record CompletionItem := mkItem {
  label : jsstring;
  kind : CompletionItemKind;
  insertText : jsstring;
  insertTextRules : option CompletionItemInsertTextRule;
  documentation : option jsstring;
  range : IRange
}.

(** [new Map(entries)]: a later entry overwrites an earlier one with the
    same key. *)
Definition Map_of_entries (entries : list (jsstring * jsstring))
  : gmap jsstring jsstring :=
  foldl (fun m kv => <[kv.1 := kv.2]> m) ∅ entries.

(** [a.slice(-n)] *)
Definition slice_last {A} (n : nat) (a : list A) : list A :=
  drop (length a - n) a.

(** [/\s?(\w+)\s+\w+$/] and [/(\w+)\.\w*$/] *)
Definition before_space_regex : regex :=
  Opt space >> Group 1 (Plus (Chr is_word)) >> Plus space
  >> Plus (Chr is_word) >> Eoi.
Definition before_dot_regex : regex :=
  Group 1 (Plus (Chr is_word)) >> lit "." >> Star (Chr is_word) >> Eoi.

(** [r.exec(s)?.[1]] *)
Definition exec_group1 (r : regex) (s : jsstring) : option jsstring :=
  match exec r s 0 with
  | Some m => group s m 1
  | None => None
  end.

(** [thisLine.trim().split(" ").slice(-1)?.[0] || ""] *)
Definition thisToken_of (thisLine : jsstring) : jsstring :=
  or_else (head (slice_last 1 (split (chr " ") (trim thisLine)))) [].

Definition lastTokenBeforeSpace_of (thisLine : jsstring) : option jsstring :=
  exec_group1 before_space_regex (trim thisLine).

Definition lastTokenBeforeDot_of (thisToken : jsstring) : option jsstring :=
  exec_group1 before_dot_regex thisToken.

(** The [if (lastTokenBeforeDot)] block: the table the qualifier names. Its
    result [table_name] is not read afterwards. *)
Definition resolve_table (tableNamesAndAliases : gmap jsstring jsstring)
           (lastTokenBeforeDot : option jsstring) : option jsstring :=
  match lastTokenBeforeDot with
  | Some (c :: q) =>
      if truthy (tableNamesAndAliases !! (c :: q))
      then tableNamesAndAliases !! (c :: q)
      else None
  | _ => None
  end.

(** What [console.log] prints. *)
Record ConsoleLog := mkLog {
  log_tableNamesAndAliases : gmap jsstring jsstring;
  log_thisToken : jsstring;
  log_lastTokenBeforeSpace : option jsstring;
  log_lastTokenBeforeDot : option jsstring
}.

(** The static suggestion. *)
Definition myCustomSnippet (range : IRange) : CompletionItem :=
  mkItem (str "myCustomSnippet") Snippet
         (str "This is a piece of custom code") (Some InsertAsSnippet)
         (Some (str "This is a piece of custom code")) range.

Definition word_range (position : Position) (word : IWordAtPosition)
  : IRange :=
  mkRange (lineNumber position) (word_startColumn word)
          (lineNumber position) (word_endColumn word).

(** [return { suggestions }]: the list is returned as it was built; the
    [B.A.uniqBy((s) => s.insertText)] pass around it is commented out. *)
Definition completion_result (suggestions : list CompletionItem)
  : list CompletionItem :=
  suggestions.

(** The provider returns the logged values and [suggestions]. *)
Definition provideCompletionItems (model : ITextModel) (position : Position)
  : option (ConsoleLog * list CompletionItem) :=
  let word := getWordUntilPosition model position in
  let range := word_range position word in
  let suggestions := [myCustomSnippet range] in
  let fullQueryText := getValue model in
  match parseSqlAndFindTableNameAndAliases fullQueryText with
  | None => None
  | Some refs =>
      let tableNamesAndAliases :=
        Map_of_entries (List.map (fun t => (alias t, table_name t)) refs) in
      let thisLine :=
        getValueInRange model
          (mkRange (lineNumber position) 1 (lineNumber position)
                   (column position)) in
      let thisToken := thisToken_of thisLine in
      let lastTokenBeforeSpace := lastTokenBeforeSpace_of thisLine in
      let lastTokenBeforeDot := lastTokenBeforeDot_of thisToken in
      let log := mkLog tableNamesAndAliases thisToken lastTokenBeforeSpace
                       lastTokenBeforeDot in
      let table_name :=
        resolve_table tableNamesAndAliases lastTokenBeforeDot in
      Some (log, completion_result suggestions)
  end.

(** A text model of one line, for the examples: a range selects columns of
    the line, and the word until a position is the run of word characters
    before it. *)
Definition one_line_model (text : jsstring) : ITextModel :=
  mkModel text
    (fun r => substring (startColumn r - 1) (endColumn r - 1) text)
    (fun p =>
       let w := rev (takeWhile is_word (rev (take (column p - 1) text))) in
       mkWord w (column p - length w) (column p)).

(** ** query-interface.tsx: the QueryInterface component *)

Inductive JsValue :=
| VNull
| VBool (b : bool)
| VNumber (z : Z)
| VString (s : jsstring).

Record QueryResult := mkResult {
  columns : list jsstring;
  rows : list (list JsValue)
}.

(** What a rejected promise carries: an [Error] with its message, or any
    other value. *)
Inductive Thrown :=
| ErrorObject (message : jsstring)
| NonError (v : JsValue).

(** How the promise returned by [Query] settles. *)
Inductive Outcome :=
| Fulfilled (result : QueryResult)
| Rejected (err : Thrown).

Record Toast := mkToast {
  title : jsstring;
  description : jsstring;
  variant : jsstring
}.

(** The state variables of the component, and the toasts shown so far. *)
Record State := mkQState {
  queryText : jsstring;
  results : option QueryResult;
  queryHistory : list jsstring;
  historyIndex : Z;
  toasts : list Toast
}.

Definition setQueryText (v : jsstring) (s : State) : State :=
  mkQState v (results s) (queryHistory s) (historyIndex s) (toasts s).
Definition setResults (v : option QueryResult) (s : State) : State :=
  mkQState (queryText s) v (queryHistory s) (historyIndex s) (toasts s).
Definition setQueryHistory (f : list jsstring -> list jsstring) (s : State)
  : State :=
  mkQState (queryText s) (results s) (f (queryHistory s)) (historyIndex s)
           (toasts s).
Definition setHistoryIndex (v : Z) (s : State) : State :=
  mkQState (queryText s) (results s) (queryHistory s) v (toasts s).
Definition toast (t : Toast) (s : State) : State :=
  mkQState (queryText s) (results s) (queryHistory s) (historyIndex s)
           (toasts s ++ [t]).

(** [useState] initial values; [initialState] is the optional prop. *)
Definition initial_state
           (initialState : option (jsstring * option QueryResult)) : State :=
  match initialState with
  | Some (text, res) => mkQState text res [] (-1) []
  | None => mkQState [] None [] (-1) []
  end.

(** An async handler either returns without awaiting, or suspends on a call
    of [Query(connection, sql)]; [resume] runs when that promise settles, on
    the state of that moment. *)
Inductive Handler :=
| Return (s : State)
| Await (connection sql : jsstring) (resume : Outcome -> State -> State).

Definition no_connection_toast : Toast :=
  mkToast (str "Error") (str "Please select a connection first")
          (str "destructive").

Definition query_error_toast (err : Thrown) : Toast :=
  mkToast (str "Query Error")
          match err with
          | ErrorObject message => message
          | NonError _ => str "An error occurred"
          end
          (str "destructive").

(** The [try]/[catch] of [handleQuery] after the [await]; [queryText] is the
    value the handler's closure holds. *)
Definition handleQuery_settled (queryText : jsstring) (o : Outcome)
           (s : State) : State :=
  match o with
  | Fulfilled result =>
      let s := setResults (Some result) s in
      if truthy (Some (trim queryText)) then
        setHistoryIndex (-1)
          (setQueryHistory (fun prev => prev ++ [queryText]) s)
      else s
  | Rejected err => toast (query_error_toast err) s
  end.

Definition handleQuery (selectedConnection : option jsstring) (s : State)
  : Handler :=
  match selectedConnection with
  | Some (c :: cs) =>
      Await (c :: cs) (queryText s) (handleQuery_settled (queryText s))
  | _ => Return (toast no_connection_toast s)
  end.

(** [a[i]] for a number [i]; out of range it is undefined. *)
Definition at_index (a : list jsstring) (i : Z) : option jsstring :=
  if (i <? 0)%Z then None else a !! Z.to_nat i.

(** [completionActive]: whether [document.querySelector] finds the
    completion tooltip. The result pairs the next state with whether
    [e.preventDefault()] was called. An undefined [queryHistory[...]] would
    be stored as the empty text; the read is in range on every state the
    component reaches. *)
Definition handleKeyDown (key : jsstring) (completionActive : bool)
           (s : State) : State * bool :=
  if completionActive then (s, false)
  else if negb (bool_decide (key = str "ArrowUp"))
          && negb (bool_decide (key = str "ArrowDown")) then (s, false)
  else if Nat.eqb (length (queryHistory s)) 0 then (s, true)
  else
    let lastIndex := (Z.of_nat (length (queryHistory s)) - 1)%Z in
    let newIndex :=
      if bool_decide (key = str "ArrowUp")
      then Z.min (historyIndex s + 1) lastIndex
      else Z.max (historyIndex s - 1) (-1) in
    let s := setHistoryIndex newIndex s in
    (setQueryText
       (if (newIndex =? -1)%Z then []
        else default [] (at_index (queryHistory s) (lastIndex - newIndex)))
       s, true).

(** The mounted component: its [selectedConnection] prop, its state and the
    calls of [Query] that have not settled yet. *)
Record Component := mkComponent {
  selectedConnection : option jsstring;
  state : State;
  inflight : list (Outcome -> State -> State)
}.

Inductive Event :=
| SelectConnection (c : option jsstring)   (* the prop changes *)
| Change (value : jsstring)                (* onChange of the editor *)
| KeyDown (key : jsstring) (completionActive : bool)
| Click                                    (* the Run Query button *)
| Settle (i : nat) (o : Outcome).          (* the i-th pending call settles *)

Definition step (c : Component) (e : Event) : Component :=
  match e with
  | SelectConnection conn => mkComponent conn (state c) (inflight c)
  | Change value =>
      mkComponent (selectedConnection c) (setQueryText value (state c))
                  (inflight c)
  | KeyDown key completionActive =>
      mkComponent (selectedConnection c)
                  (fst (handleKeyDown key completionActive (state c)))
                  (inflight c)
  | Click =>
      match handleQuery (selectedConnection c) (state c) with
      | Return s => mkComponent (selectedConnection c) s (inflight c)
      | Await _ _ resume =>
          mkComponent (selectedConnection c) (state c)
                      (inflight c ++ [resume])
      end
  | Settle i o =>
      match inflight c !! i with
      | Some resume =>
          mkComponent (selectedConnection c) (resume o (state c))
                      (delete i (inflight c))
      | None => c
      end
  end.

Definition run (c : Component) (events : list Event) : Component :=
  foldl step c events.

Definition mount (conn : option jsstring)
           (initialState : option (jsstring * option QueryResult))
  : Component :=
  mkComponent conn (initial_state initialState) [].

(** ** Notions used in the statements *)

(** Patterns that match at every position when the rest of the pattern
    does. *)
Fixpoint total (r : regex) : bool :=
  match r with
  | Empty | Star _ | Opt _ => true
  | Chr _ | WordB | Eoi => false
  | Seq r1 r2 => total r1 && total r2
  | Alt r1 r2 => total r1 || total r2
  | Group _ r' => total r'
  end.

(** The end of the longest run of [p] from index [e]. *)
Definition run_end (p : char -> bool) (input : jsstring) (e : nat) : nat :=
  e + length (takeWhile p (drop e input)).

(** [y] has the captures of [x] outside the parentheses [gs]. *)
Definition frame (gs : list nat) (x y : MatchState) : Prop :=
  forall i, i ∉ gs -> captures y i = captures x i.

(** No code unit of [[^\s.]] stands at index [b]. *)
Definition stops_table (input : jsstring) (b : nat) : Prop :=
  forall a, input !! b = Some a ->
            negb (is_space a || N.eqb a (chr ".")) = false.

(** The reference [t] was read from a match of the FROM/JOIN pattern whose
    table-name group is the segment [[a, b)] of the text. *)
Definition table_segment (sql : jsstring) (t : TableRef) (a b : nat) : Prop :=
  exists lastIndex m,
    exec from_join_regex sql lastIndex = Some m
    /\ captures (snd m) 1 = Some (a, b)
    /\ table_name t = substring a b sql.

(** What the scan guarantees of a reference. *)
Definition not_a_call (sql : jsstring) (t : TableRef) : Prop :=
  (chr "(" ∉ table_name t)
  /\ exists a b, table_segment sql t a b /\ a < b <= length sql
                 /\ sql !! b <> Some (chr "(").

Definition blank (s : jsstring) : bool := forallb is_space s.

Definition ends_in_whitespace (s : jsstring) : bool :=
  match last s with
  | Some c => is_space c
  | None => false
  end.

(** The suggestions hold a Field item for each column, inserting the
    column's name over [range]. *)
Definition includes_columns (rng : IRange) (cols : list jsstring)
           (suggestions : list CompletionItem) : Prop :=
  forall col, col ∈ cols ->
    exists item, item ∈ suggestions /\ kind item = Field
                 /\ insertText item = col /\ range item = rng.



(** The buffer [SELECT c. FROM customers c] with the cursor after [c.]. *)
Definition example_model : ITextModel :=
  one_line_model (str "SELECT c. FROM customers c").
Definition example_position : Position := mkPosition 1 10.

(** The history cursor is -1 or an index of the history. *)
Definition cursor_valid (s : State) : Prop :=
  (-1 <= historyIndex s <= Z.of_nat (length (queryHistory s)) - 1)%Z.

Definition resume_keeps_cursor (resume : Outcome -> State -> State) : Prop :=
  forall o s, cursor_valid s -> cursor_valid (resume o s).

Definition component_inv (c : Component) : Prop :=
  cursor_valid (state c) /\ Forall resume_keeps_cursor (inflight c).

(** Three runs that succeed, on the texts [A], the empty text and [B]. *)
Definition submitted (r1 r2 r3 : QueryResult) : list Event :=
  [Change (str "A"); Click; Settle 0 (Fulfilled r1);
   Change []; Click; Settle 0 (Fulfilled r2);
   Change (str "B"); Click; Settle 0 (Fulfilled r3)].

(** A state that shows the result of an earlier run. *)
Definition stale_state : State :=
  mkQState (str "SELEC 1") (Some (mkResult [str "n"] [[VNumber 1]])) []
           (-1) [].

(** ** Further notions used in the statements *)

(** What a pattern matches: [matches input r i j] when [r] can consume the
    code units of [input] from index [i] up to [j]. *)
Inductive matches (input : jsstring) : regex -> nat -> nat -> Prop :=
| matches_Empty i : matches input Empty i i
| matches_Chr p i ch :
    input !! i = Some ch -> p ch = true -> matches input (Chr p) i (S i)
| matches_WordB i :
    word_boundary input i = true -> matches input WordB i i
| matches_Eoi : matches input Eoi (length input) (length input)
| matches_Seq r1 r2 i j k :
    matches input r1 i j -> matches input r2 j k ->
    matches input (Seq r1 r2) i k
| matches_Alt_l r1 r2 i j :
    matches input r1 i j -> matches input (Alt r1 r2) i j
| matches_Alt_r r1 r2 i j :
    matches input r2 i j -> matches input (Alt r1 r2) i j
| matches_Star_stop r i : matches input (Star r) i i
| matches_Star_more r i j k :
    matches input r i j -> matches input (Star r) j k ->
    matches input (Star r) i k
| matches_Opt_none r i : matches input (Opt r) i i
| matches_Opt_some r i j :
    matches input r i j -> matches input (Opt r) i j
| matches_Group n r i j :
    matches input r i j -> matches input (Group n r) i j.

(** The inside of the table-name group. *)
Definition table_inner : regex :=
  Plus not_space_dot >> Opt (lit "." >> Plus not_space_dot).

(** A non-empty run of [[^\s.]]. *)
Definition plain_part (w : jsstring) : Prop :=
  w <> [] /\ Forall (fun c => is_space c = false /\ c <> chr ".") w.

(** The words of [/on|where|inner|left|right|join/]. *)
Definition reserved_words : list string :=
  ["on"; "where"; "inner"; "left"; "right"; "join"]%string.

(** [w] occurs somewhere inside [s]. *)
Definition occurs_in (w s : jsstring) : Prop :=
  exists l1 l2, s = l1 ++ w ++ l2.

(** The alias of a reference is its table name, or a second identifier that
    passed the reserved-word test. *)
Definition alias_ok (t : TableRef) : Prop :=
  alias t = table_name t
  \/ (alias t <> []
      /\ Forall (fun c => is_space c = false /\ c <> chr ",") (alias t)
      /\ test reserved_regex (alias t) = false).

(** The reference [t] was read from the segment [seg] of the text. *)
Definition entry (sql : jsstring) (t : TableRef) (seg : nat * nat) : Prop :=
  table_name t = substring (fst seg) (snd seg) sql
  /\ matches sql table_inner (fst seg) (snd seg)
  /\ alias_ok t.

(** Segments in text order, each starting at least five code units after
    [lo] or after the end of the one before, all within [limit]. *)
Fixpoint spaced (limit lo : nat) (segs : list (nat * nat)) : Prop :=
  match segs with
  | [] => True
  | (a, b) :: rest => lo + 5 <= a /\ a < b <= limit /\ spaced limit b rest
  end.

(** The entries the provider hands to [new Map]. *)
Definition alias_entries (refs : list TableRef)
  : list (jsstring * jsstring) :=
  List.map (fun t => (alias t, table_name t)) refs.

(** [n] presses of [key] while no completion popup shows. *)
Definition press (key : jsstring) (n : nat) (s : State) : State :=
  Nat.iter n (fun s => fst (handleKeyDown key false s)) s.

(** [queryText.trim()] is truthy. *)
Definition nonblank (q : jsstring) : bool := truthy (Some (trim q)).

(** The entry of the history that the cursor [i] shows: the [i]-th from the
    newest. *)
Definition recalled (history : list jsstring) (i : Z) : option jsstring :=
  at_index history (Z.of_nat (length history) - 1 - i).

(** Every pending call is a call of [handleQuery]. *)
Definition settled_only (c : Component) : Prop :=
  Forall (fun resume => exists text, resume = handleQuery_settled text)
         (inflight c).

(** ** query-interface.tsx: loading the table list and the table info *)

Module Metadata.

(** The state variables [tables] and [tableInfo]; [TableInfo] stands for the
    type of that name, which the component imports. *)
Record State (TableInfo : Type) := mkState {
  tables : list jsstring;
  tableInfo : list TableInfo
}.
Arguments mkState {TableInfo}.
Arguments tables {TableInfo}.
Arguments tableInfo {TableInfo}.

Definition setTables {TableInfo} (v : list jsstring) (s : State TableInfo)
  : State TableInfo :=
  mkState v (tableInfo s).
Definition setTableInfo {TableInfo} (v : list TableInfo)
           (s : State TableInfo) : State TableInfo :=
  mkState (tables s) v.

(** How the promise of [ListTables] or [GetTableInfo] settles. *)
Inductive Settled (A : Type) :=
| Resolved (value : A)
| Failed (err : Thrown).
Arguments Resolved {A}.
Arguments Failed {A}.

(** A loader returns at once without a connection, or awaits one call;
    [resume] is its [try]/[catch] after the [await]. *)
Inductive Load (S A : Type) :=
| NoCall
| Call (connection : jsstring) (resume : Settled A -> S -> S).
Arguments NoCall {S A}.
Arguments Call {S A}.

(** After [await ListTables(selectedConnection)]: the list is stored, an
    error is only logged. *)
Definition loadTables_settled {TableInfo} (o : Settled (list jsstring))
           (s : State TableInfo) : State TableInfo :=
  match o with
  | Resolved tablesList => setTables tablesList s
  | Failed _ => s
  end.

Definition loadTableInfo_settled {TableInfo} (o : Settled (list TableInfo))
           (s : State TableInfo) : State TableInfo :=
  match o with
  | Resolved info => setTableInfo info s
  | Failed _ => s
  end.

Definition loadTables {TableInfo} (selectedConnection : option jsstring)
  : Load (State TableInfo) (list jsstring) :=
  match selectedConnection with
  | Some (c :: cs) => Call (c :: cs) loadTables_settled
  | _ => NoCall
  end.

Definition loadTableInfo {TableInfo} (selectedConnection : option jsstring)
  : Load (State TableInfo) (list TableInfo) :=
  match selectedConnection with
  | Some (c :: cs) => Call (c :: cs) loadTableInfo_settled
  | _ => NoCall
  end.

(** The component as far as the two lists go: the prop, the lists, and the
    calls that have not settled, each with the connection it was made
    for. *)
Record Component (TableInfo : Type) := mkComponent {
  selectedConnection : option jsstring;
  state : State TableInfo;
  tableCalls :
    list (jsstring * (Settled (list jsstring) -> State TableInfo
                      -> State TableInfo));
  infoCalls :
    list (jsstring * (Settled (list TableInfo) -> State TableInfo
                      -> State TableInfo))
}.
Arguments mkComponent {TableInfo}.
Arguments selectedConnection {TableInfo}.
Arguments state {TableInfo}.
Arguments tableCalls {TableInfo}.
Arguments infoCalls {TableInfo}.

Definition start_tables {TableInfo} (c : Component TableInfo)
  : Component TableInfo :=
  match loadTables (selectedConnection c) with
  | Call conn resume =>
      mkComponent (selectedConnection c) (state c)
                  (tableCalls c ++ [(conn, resume)]) (infoCalls c)
  | NoCall => c
  end.

Definition start_info {TableInfo} (c : Component TableInfo)
  : Component TableInfo :=
  match loadTableInfo (selectedConnection c) with
  | Call conn resume =>
      mkComponent (selectedConnection c) (state c) (tableCalls c)
                  (infoCalls c ++ [(conn, resume)])
  | NoCall => c
  end.

(** The effect on [[selectedConnection]]: with a connection, both loaders
    are called. *)
Definition connection_effect {TableInfo} (c : Component TableInfo)
  : Component TableInfo :=
  if truthy (selectedConnection c) then start_info (start_tables c) else c.

Inductive Event (TableInfo : Type) :=
| Select (conn : option jsstring)        (* the prop is set *)
| TablesSettle (i : nat) (o : Settled (list jsstring))
| InfoSettle (i : nat) (o : Settled (list TableInfo)).
Arguments Select {TableInfo}.
Arguments TablesSettle {TableInfo}.
Arguments InfoSettle {TableInfo}.

(** The effect runs again only when the prop has changed. *)
Definition step {TableInfo} (c : Component TableInfo) (e : Event TableInfo)
  : Component TableInfo :=
  match e with
  | Select conn =>
      if bool_decide (conn = selectedConnection c) then c
      else connection_effect
             (mkComponent conn (state c) (tableCalls c) (infoCalls c))
  | TablesSettle i o =>
      match tableCalls c !! i with
      | Some (_, resume) =>
          mkComponent (selectedConnection c) (resume o (state c))
                      (delete i (tableCalls c)) (infoCalls c)
      | None => c
      end
  | InfoSettle i o =>
      match infoCalls c !! i with
      | Some (_, resume) =>
          mkComponent (selectedConnection c) (resume o (state c))
                      (tableCalls c) (delete i (infoCalls c))
      | None => c
      end
  end.

Definition run {TableInfo} (c : Component TableInfo)
           (events : list (Event TableInfo)) : Component TableInfo :=
  foldl step c events.

(** The first render: empty lists, then the effect. *)
Definition mount {TableInfo} (conn : option jsstring)
  : Component TableInfo :=
  connection_effect (mkComponent conn (mkState [] []) [] []).

(** Every pending call is one of the two loaders'. *)
Definition loaders_only {TableInfo} (c : Component TableInfo) : Prop :=
  Forall (fun call => snd call = loadTables_settled) (tableCalls c)
  /\ Forall (fun call => snd call = loadTableInfo_settled) (infoCalls c).

End Metadata.

(** ** Facts about the matchers *)

Section Matcher.
Variable input : jsstring.

Lemma clear_captures_frame gs x i :
  i ∉ gs -> captures (clear_captures gs x) i = captures x i.
Proof.
  intros Hi. simpl.
  destruct (existsb (Nat.eqb i) gs) eqn:E; [|reflexivity].
  apply existsb_exists in E as (j & Hj & Hij).
  apply Nat.eqb_eq in Hij. subst j.
  exfalso. apply Hi. apply list_elem_of_In. exact Hj.
Qed.

Lemma RepeatMatcher_inv m gs c :
  (forall x d z, m x d = Some z -> endIndex x <= length input ->
     exists y, d y = Some z /\ endIndex x <= endIndex y <= length input
               /\ frame gs x y) ->
  forall n x z,
    RepeatMatcher m gs c n x = Some z -> endIndex x <= length input ->
    exists y, c y = Some z /\ endIndex x <= endIndex y <= length input
              /\ frame gs x y.
Proof.
  intros Hm. induction n as [|n IH]; intros x z H Hx; simpl in H.
  - exists x. split; [exact H|]. split; [lia|]. intros i _. reflexivity.
  - destruct (m (clear_captures gs x) _) as [z'|] eqn:E.
    + inversion H; subst z'. clear H.
      apply Hm in E as (y & Hd & Hle & Hfr); [|exact Hx].
      simpl in Hle.
      destruct (Nat.eqb (endIndex y) (endIndex x)); [discriminate|].
      apply IH in Hd as (y' & Hc & Hle' & Hfr'); [|lia].
      exists y'. split; [exact Hc|]. split; [lia|].
      intros i Hi. rewrite Hfr', Hfr by exact Hi.
      apply clear_captures_frame. exact Hi.
    + exists x. split; [exact H|]. split; [lia|]. intros i _. reflexivity.
Qed.

Lemma matcher_inv r :
  forall x c z,
    matcher input r x c = Some z -> endIndex x <= length input ->
    exists y, c y = Some z
              /\ endIndex x + minlen r <= endIndex y <= length input
              /\ frame (groups r) x y.
Proof.
  induction r as [|p| | |r1 IH1 r2 IH2|r1 IH1 r2 IH2|r IH|r IH|n r IH];
    intros x c z H Hx; simpl in H.
  - exists x. split; [exact H|]. simpl. split; [lia|]. intros i _. reflexivity.
  - destruct (input !! endIndex x) as [ch|] eqn:E; [|discriminate].
    destruct (p ch); [|discriminate].
    apply lookup_lt_Some in E.
    exists (advance x). split; [exact H|]. simpl. split; [lia|].
    intros i _. reflexivity.
  - destruct (word_boundary _ _); [|discriminate].
    exists x. split; [exact H|]. simpl. split; [lia|]. intros i _. reflexivity.
  - destruct (Nat.eqb _ _); [|discriminate].
    exists x. split; [exact H|]. simpl. split; [lia|]. intros i _. reflexivity.
  - apply IH1 in H as (y & H & Hle & Hfr); [|exact Hx].
    apply IH2 in H as (y' & H & Hle' & Hfr'); [|lia].
    exists y'. split; [exact H|]. simpl. split; [lia|].
    intros i Hi. rewrite not_elem_of_app in Hi. destruct Hi as [Hi1 Hi2].
    rewrite Hfr', Hfr; auto.
  - destruct (matcher input r1 x c) as [z'|] eqn:E.
    + inversion H; subst z'.
      apply IH1 in E as (y & H' & Hle & Hfr); [|exact Hx].
      exists y. split; [exact H'|]. simpl. split; [lia|].
      intros i Hi. rewrite not_elem_of_app in Hi. apply Hfr. tauto.
    + apply IH2 in H as (y & H' & Hle & Hfr); [|exact Hx].
      exists y. split; [exact H'|]. simpl. split; [lia|].
      intros i Hi. rewrite not_elem_of_app in Hi. apply Hfr. tauto.
  - apply RepeatMatcher_inv in H; [|clear H|exact Hx].
    + destruct H as (y & Hc & Hle & Hfr). exists y. simpl.
      split; [exact Hc|]. split; [lia|exact Hfr].
    + intros x' d z' H' Hx'.
      apply IH in H' as (y & Hd & Hle & Hfr); [|exact Hx'].
      exists y. split; [exact Hd|]. split; [lia|exact Hfr].
  - destruct (matcher input r _ _) as [z'|] eqn:E.
    + inversion H; subst z'.
      apply IH in E as (y & Hd & Hle & Hfr); [|exact Hx].
      simpl in Hle. destruct (Nat.eqb _ _); [discriminate|].
      exists y. split; [exact Hd|]. simpl. split; [lia|].
      intros i Hi. rewrite Hfr by exact Hi.
      apply clear_captures_frame. exact Hi.
    + exists x. split; [exact H|]. simpl. split; [lia|]. intros i _. reflexivity.
  - apply IH in H as (y & Hc & Hle & Hfr); [|exact Hx].
    exists (set_capture n (endIndex x, endIndex y) y).
    split; [exact Hc|]. simpl. split; [lia|].
    intros i Hi. rewrite not_elem_of_cons in Hi. destruct Hi as [Hi1 Hi2].
    apply Nat.eqb_neq in Hi1. cbn. rewrite Hi1. apply Hfr. exact Hi2.
Qed.

(** A matcher reads its continuation only at states it can reach. *)
Lemma RepeatMatcher_ext m gs c c' :
  (forall x d d',
      (forall y, endIndex x <= endIndex y <= length input -> d y = d' y) ->
      endIndex x <= length input -> m x d = m x d') ->
  forall n x,
    (forall y, endIndex x <= endIndex y <= length input -> c y = c' y) ->
    endIndex x <= length input ->
    RepeatMatcher m gs c n x = RepeatMatcher m gs c' n x.
Proof.
  intros Hm. induction n as [|n IH]; intros x Hc Hx; cbn [RepeatMatcher].
  - apply Hc. lia.
  - rewrite (Hc x) by lia.
    assert (E : m (clear_captures gs x)
                  (fun y => if Nat.eqb (endIndex y) (endIndex x) then None
                            else RepeatMatcher m gs c n y)
                = m (clear_captures gs x)
                    (fun y => if Nat.eqb (endIndex y) (endIndex x) then None
                              else RepeatMatcher m gs c' n y)).
    { apply Hm; [|exact Hx].
      intros y Hy. cbn [clear_captures endIndex] in Hy.
      destruct (Nat.eqb_spec (endIndex y) (endIndex x)) as [E|E];
        [reflexivity|].
      apply IH; [|lia]. intros y' Hy'. apply Hc. lia. }
    rewrite E. reflexivity.
Qed.

Lemma matcher_ext r :
  forall x c c',
    (forall y, endIndex x <= endIndex y <= length input -> c y = c' y) ->
    endIndex x <= length input ->
    matcher input r x c = matcher input r x c'.
Proof.
  induction r as [|p| | |r1 IH1 r2 IH2|r1 IH1 r2 IH2|r IH|r IH|n r IH];
    intros x c c' Hc Hx; cbn [matcher].
  - apply Hc. lia.
  - destruct (input !! endIndex x) as [ch|] eqn:E; [|reflexivity].
    apply lookup_lt_Some in E.
    destruct (p ch); [|reflexivity]. apply Hc. simpl. lia.
  - destruct (word_boundary _ _); [|reflexivity]. apply Hc. lia.
  - destruct (Nat.eqb _ _); [|reflexivity]. apply Hc. lia.
  - apply IH1; [|exact Hx]. intros y Hy. apply IH2; [|lia].
    intros y' Hy'. apply Hc. lia.
  - rewrite (IH1 x c c' Hc Hx), (IH2 x c c' Hc Hx). reflexivity.
  - apply RepeatMatcher_ext; [|exact Hc|exact Hx].
    intros x' d d' Hd Hx'. apply IH; assumption.
  - rewrite (Hc x) by lia.
    assert (E : matcher input r (clear_captures (groups r) x)
                  (fun y => if Nat.eqb (endIndex y) (endIndex x) then None
                            else c y)
                = matcher input r (clear_captures (groups r) x)
                    (fun y => if Nat.eqb (endIndex y) (endIndex x) then None
                              else c' y)).
    { apply IH; [|exact Hx].
      intros y Hy. cbn [clear_captures endIndex] in Hy.
      destruct (Nat.eqb _ _); [reflexivity|]. apply Hc. lia. }
    rewrite E. reflexivity.
  - apply IH; [|exact Hx]. intros y Hy. apply Hc. simpl. lia.
Qed.

(** The number of iterations allowed to [r*] is never the limit: any
    larger number gives the same result. *)
Lemma RepeatMatcher_fuel r c :
  forall n n' x,
    length input - endIndex x <= n -> length input - endIndex x <= n' ->
    endIndex x <= length input ->
    RepeatMatcher (matcher input r) (groups r) c n x
    = RepeatMatcher (matcher input r) (groups r) c n' x.
Proof.
  assert (Hstuck : forall x d,
             endIndex x = length input ->
             (forall y, endIndex y = endIndex x -> d y = None) ->
             matcher input r (clear_captures (groups r) x) d = None).
  { intros x d Hx Hd.
    destruct (matcher input r _ d) as [z|] eqn:E; [|reflexivity].
    apply matcher_inv in E as (y & Hy & Hle & _); [|simpl; lia].
    simpl in Hle. rewrite Hd in Hy by lia. discriminate. }
  induction n as [|n IH]; intros n' x Hn Hn' Hx.
  - destruct n' as [|n']; [reflexivity|]. cbn [RepeatMatcher].
    rewrite Hstuck; [reflexivity|lia|].
    intros y Hy. rewrite (proj2 (Nat.eqb_eq _ _) Hy). reflexivity.
  - destruct n' as [|n']; cbn [RepeatMatcher].
    + rewrite Hstuck; [reflexivity|lia|].
      intros y Hy. rewrite (proj2 (Nat.eqb_eq _ _) Hy). reflexivity.
    + assert (E : matcher input r (clear_captures (groups r) x)
                    (fun y => if Nat.eqb (endIndex y) (endIndex x) then None
                              else RepeatMatcher (matcher input r) (groups r)
                                                 c n y)
                  = matcher input r (clear_captures (groups r) x)
                      (fun y => if Nat.eqb (endIndex y) (endIndex x)
                                then None
                                else RepeatMatcher (matcher input r)
                                                   (groups r) c n' y)).
      { apply matcher_ext; [|exact Hx].
        intros y Hy. cbn [clear_captures endIndex] in Hy.
        destruct (Nat.eqb_spec (endIndex y) (endIndex x)) as [E|E];
          [reflexivity|].
        apply IH; lia. }
      rewrite E. reflexivity.
Qed.

(** [r*] tries one more iteration of [r] and then [r*] again, else goes
    on with the rest. *)
Lemma matcher_Star_unfold r x c :
  endIndex x <= length input ->
  matcher input (Star r) x c
  = match matcher input r (clear_captures (groups r) x)
            (fun y => if Nat.eqb (endIndex y) (endIndex x) then None
                      else matcher input (Star r) y c) with
    | Some z => Some z
    | None => c x
    end.
Proof.
  intros Hx. cbn [matcher].
  destruct (length input - endIndex x) as [|n] eqn:En; cbn [RepeatMatcher].
  - destruct (matcher input r _ _) as [z|] eqn:E; [|reflexivity].
    apply matcher_inv in E as (y & Hy & Hle & _); [|simpl; lia].
    simpl in Hle.
    rewrite (proj2 (Nat.eqb_eq (endIndex y) (endIndex x))) in Hy by lia.
    discriminate.
  - assert (E : matcher input r (clear_captures (groups r) x)
                  (fun y => if Nat.eqb (endIndex y) (endIndex x) then None
                            else RepeatMatcher (matcher input r) (groups r)
                                               c n y)
                = matcher input r (clear_captures (groups r) x)
                    (fun y => if Nat.eqb (endIndex y) (endIndex x) then None
                              else matcher input (Star r) y c)).
    { apply matcher_ext; [|exact Hx].
      intros y Hy. cbn [clear_captures endIndex] in Hy.
      destruct (Nat.eqb_spec (endIndex y) (endIndex x)) as [E|E];
        [reflexivity|].
      cbn [matcher]. apply RepeatMatcher_fuel; lia. }
    rewrite E. reflexivity.
Qed.

Lemma matcher_total r :
  total r = true ->
  forall x c, (forall y, is_Some (c y)) -> is_Some (matcher input r x c).
Proof.
  induction r as [|p| | |r1 IH1 r2 IH2|r1 IH1 r2 IH2|r IH|r IH|n r IH];
    simpl; intros Ht x c Hc; try discriminate.
  - apply Hc.
  - apply andb_true_iff in Ht as [Ht1 Ht2].
    apply IH1; [exact Ht1|]. intros y. apply IH2; [exact Ht2|exact Hc].
  - destruct (matcher input r1 x c) as [z|] eqn:E; [eauto|].
    apply orb_true_iff in Ht as [Ht|Ht].
    + specialize (IH1 Ht x c Hc). rewrite E in IH1. destruct IH1; discriminate.
    + apply IH2; [exact Ht|exact Hc].
  - destruct (length input - endIndex x); simpl; [apply Hc|].
    destruct (matcher input r _ _); [eauto|apply Hc].
  - destruct (matcher input r _ _); [eauto|apply Hc].
  - apply IH; [exact Ht|]. intros y. apply Hc.
Qed.

Lemma takeWhile_stop {A} (p : A -> bool) (l : list A) a :
  l !! length (takeWhile p l) = Some a -> p a = false.
Proof.
  induction l as [|b l IH]; simpl; [discriminate|].
  destruct (p b) eqn:E; simpl; [exact IH|].
  intros H. inversion H; subst. exact E.
Qed.

Lemma run_end_stop p e a :
  input !! run_end p input e = Some a -> p a = false.
Proof.
  unfold run_end. rewrite <- lookup_drop. apply takeWhile_stop.
Qed.

Lemma run_end_le p e :
  e <= length input -> e <= run_end p input e <= length input.
Proof.
  intros He. unfold run_end. split; [lia|].
  assert (length (takeWhile p (drop e input)) <= length (drop e input)).
  { generalize (drop e input). induction l as [|b l IH]; simpl; [lia|].
    destruct (p b); simpl; lia. }
  rewrite length_drop in H. lia.
Qed.

Lemma run_end_step p e a :
  input !! e = Some a -> p a = true ->
  run_end p input e = run_end p input (S e).
Proof.
  intros He Hp. unfold run_end.
  rewrite (drop_S _ _ _ He). simpl. rewrite Hp. simpl. lia.
Qed.

Lemma run_end_here p e :
  match input !! e with Some a => p a = false | None => True end ->
  run_end p input e = e.
Proof.
  intros H. unfold run_end.
  destruct (input !! e) as [a|] eqn:He.
  - rewrite (drop_S _ _ _ He). simpl. rewrite H. simpl. lia.
  - apply lookup_ge_None in He. rewrite drop_ge by exact He. simpl. lia.
Qed.

(** With a continuation that cannot fail from [lo] on, [p*] stops at the
    end of the longest run of [p]. *)
Lemma RepeatMatcher_Chr p c m lo :
  (forall x d, m x d = matcher input (Chr p) x d) ->
  (forall y, lo <= endIndex y -> is_Some (c y)) ->
  forall n e caps, lo <= e -> length input - e <= n ->
    RepeatMatcher m [] c n (mkState e caps)
    = c (mkState (run_end p input e) caps).
Proof.
  intros Hm Hc. induction n as [|n IH]; intros e caps Hlo Hn;
    cbn [RepeatMatcher].
  - rewrite run_end_here; [reflexivity|].
    rewrite (proj2 (lookup_ge_None input e)) by lia. exact I.
  - change (clear_captures [] (mkState e caps)) with (mkState e caps).
    rewrite Hm. cbn [matcher endIndex].
    destruct (input !! e) as [a|] eqn:He.
    + destruct (p a) eqn:Hp.
      * cbn [advance endIndex captures].
        rewrite (proj2 (Nat.eqb_neq (S e) e)) by lia.
        apply lookup_lt_Some in He as Hlt.
        change (advance (mkState e caps)) with (mkState (S e) caps).
        rewrite IH by lia.
        rewrite <- (run_end_step p e a He Hp).
        destruct (Hc (mkState (run_end p input e) caps)) as [z Hz].
        { cbn. unfold run_end. lia. }
        rewrite Hz. reflexivity.
      * rewrite run_end_here; [reflexivity|]. rewrite He. exact Hp.
    + rewrite run_end_here; [reflexivity|]. rewrite He. exact I.
Qed.

Lemma matcher_Star_Chr p c x :
  (forall y, endIndex x <= endIndex y -> is_Some (c y)) ->
  matcher input (Star (Chr p)) x c
  = c (mkState (run_end p input (endIndex x)) (captures x)).
Proof.
  intros Hc. destruct x as [e caps].
  change (matcher input (Star (Chr p)) (mkState e caps) c)
    with (RepeatMatcher (matcher input (Chr p)) [] c (length input - e)
                        (mkState e caps)).
  apply (RepeatMatcher_Chr p c _ e); [reflexivity|exact Hc|cbn; lia|cbn; lia].
Qed.

Lemma matcher_Plus_Chr p c x z :
  (forall y, endIndex x < endIndex y -> is_Some (c y)) ->
  matcher input (Plus (Chr p)) x c = Some z ->
  exists b, c (mkState b (captures x)) = Some z
            /\ endIndex x < b <= length input
            /\ (forall a, input !! b = Some a -> p a = false).
Proof.
  intros Hc H. unfold Plus in H.
  change (matcher input (Chr p >> Star (Chr p)) x c)
    with (matcher input (Chr p) x
                  (fun y => matcher input (Star (Chr p)) y c)) in H.
  cbn [matcher] in H.
  destruct (input !! endIndex x) as [a|] eqn:He; [|discriminate].
  destruct (p a); [|discriminate].
  apply lookup_lt_Some in He.
  change (matcher input (Star (Chr p)) (advance x) c = Some z) in H.
  rewrite matcher_Star_Chr in H by (intros y Hy; apply Hc; simpl in Hy; lia).
  simpl in H.
  exists (run_end p input (S (endIndex x))). split; [exact H|].
  split; [|apply run_end_stop].
  pose proof (run_end_le p (S (endIndex x))). lia.
Qed.

(** The table-name group ends where no further code unit of [[^\s.]] can
    be taken. *)
Lemma table_pattern_end c x z :
  (forall y, is_Some (c y)) ->
  matcher input table_pattern x c = Some z ->
  exists b, c (set_capture 1 (endIndex x, b) (mkState b (captures x))) = Some z
            /\ endIndex x < b <= length input /\ stops_table input b.
Proof.
  intros Hc H. unfold table_pattern in H.
  set (c' := fun y => c (set_capture 1 (endIndex x, endIndex y) y)).
  set (D := lit "." >> Plus not_space_dot) in H.
  change (matcher input (Plus not_space_dot) x
                  (fun y => matcher input (Opt D) y c') = Some z) in H.
  apply matcher_Plus_Chr in H as (b1 & H & Hb1 & Hstop1).
  2:{ intros y _. apply matcher_total; [reflexivity|]. intros y'. apply Hc. }
  set (x1 := mkState b1 (captures x)) in H.
  set (d := fun y => if Nat.eqb (endIndex y) b1 then None else c' y).
  change (match matcher input D x1 d with
          | Some z' => Some z'
          | None => c' x1
          end = Some z) in H.
  destruct (matcher input D x1 d) as [z'|] eqn:E.
  - inversion H; subst z'. clear H.
    change (matcher input (lit ".") x1
              (fun y => matcher input (Plus not_space_dot) y d) = Some z) in E.
    unfold lit in E. cbn [matcher] in E.
    destruct (input !! endIndex x1) as [a|]; [|discriminate].
    destruct (chr "." =? a)%N; [|discriminate].
    apply matcher_Plus_Chr in E as (b2 & E & Hb2 & Hstop2).
    2:{ intros y Hy. unfold d. simpl in Hy.
        rewrite (proj2 (Nat.eqb_neq (endIndex y) b1)) by lia. apply Hc. }
    simpl in Hb2. unfold d in E. cbn [endIndex] in E.
    rewrite (proj2 (Nat.eqb_neq b2 b1)) in E by lia.
    exists b2. split; [exact E|]. split; [lia|exact Hstop2].
  - exists b1. split; [exact H|]. split; [lia|exact Hstop1].
Qed.

Lemma search_inv r n : forall i m,
  search input r n i = Some m ->
  i <= fst m < i + n
  /\ matcher input r (initial (fst m)) accept = Some (snd m).
Proof.
  induction n as [|n IH]; intros i m H; simpl in H; [discriminate|].
  destruct (matcher input r (initial i) accept) as [z|] eqn:E.
  - inversion H; subst m. simpl. split; [lia|exact E].
  - apply IH in H as [Hi H]. split; [lia|exact H].
Qed.

Lemma exec_inv r lastIndex m :
  exec r input lastIndex = Some m ->
  lastIndex <= fst m <= length input
  /\ matcher input r (initial (fst m)) accept = Some (snd m).
Proof.
  unfold exec. destruct (Nat.ltb_spec (length input) lastIndex) as [Hlt|Hle];
    [discriminate|].
  intros H. apply search_inv in H as [Hi H]. split; [lia|exact H].
Qed.

(** A match of the FROM/JOIN pattern: where its table-name group ends no
    further code unit of [[^\s.]] follows, and the match is not empty. *)
Lemma from_join_match lastIndex m :
  exec from_join_regex input lastIndex = Some m ->
  lastIndex + 6 <= endIndex (snd m) <= length input
  /\ exists a b, captures (snd m) 1 = Some (a, b)
                 /\ a < b <= length input /\ stops_table input b.
Proof.
  intros H. apply exec_inv in H as [Hi H]. destruct m as [i z].
  cbn [fst snd] in *.
  split.
  - apply matcher_inv in H as (y & Hy & Hle & _); [|simpl; lia].
    inversion Hy; subst y. simpl in Hle. lia.
  - unfold from_join_regex in H.
    change (matcher input WordB (initial i) (fun y1 =>
              matcher input (Alt (word_i "FROM") (word_i "JOIN")) y1 (fun y2 =>
                matcher input (Plus space) y2 (fun y3 =>
                  matcher input table_pattern y3 (fun y4 =>
                    matcher input alias_pattern y4 accept)))) = Some z) in H.
    apply matcher_inv in H as (y1 & H & Hle1 & _); [|simpl; lia].
    apply matcher_inv in H as (y2 & H & Hle2 & _); [|lia].
    apply matcher_inv in H as (y3 & H & Hle3 & _); [|lia].
    apply table_pattern_end in H as (b & H & Hb & Hstop).
    2:{ intros y. apply matcher_total; [reflexivity|].
        intros y'. unfold accept. eauto. }
    apply matcher_inv in H as (y5 & H & Hle5 & Hfr); [|simpl; lia].
    inversion H; subst y5.
    exists (endIndex y3), b. split; [|split; [lia|exact Hstop]].
    rewrite Hfr; [reflexivity|].
    simpl. intros Hin. apply list_elem_of_In in Hin. simpl in Hin.
    destruct Hin as [Hin|[]]. discriminate.
Qed.
Lemma search_lit_found a n : forall i j,
  i <= j < i + n -> input !! j = Some (chr a) ->
  is_Some (search input (lit a) n i).
Proof.
  induction n as [|n IH]; intros i j Hj Hs; [lia|].
  cbn [search]. unfold lit at 1. cbn [matcher initial endIndex].
  destruct (input !! i) as [ch|] eqn:E.
  - destruct (N.eqb_spec (chr a) ch) as [<-|Hne]; [eauto|].
    apply (IH (S i) j); [|exact Hs].
    assert (j <> i) by (intros ->; congruence). lia.
  - apply (IH (S i) j); [|exact Hs].
    assert (j <> i) by (intros ->; congruence). lia.
Qed.

Lemma test_lit_found a : chr a ∈ input -> test (lit a) input = true.
Proof.
  intros H. apply list_elem_of_lookup in H as [j Hj].
  apply lookup_lt_Some in Hj as Hlt.
  unfold test, exec.
  rewrite (proj2 (Nat.ltb_ge (length input) 0)) by lia.
  destruct (search_lit_found a (S (length input - 0)) 0 j) as [m Hm];
    [lia|exact Hj|].
  rewrite Hm. reflexivity.
Qed.
End Matcher.

(** ** Facts about the reference scan *)

Section References.
Variable sql : jsstring.

Lemma stops_table_not_paren b :
  stops_table sql b -> sql !! b <> Some (chr "(").
Proof. intros H E. apply H in E. discriminate. Qed.

(** One turn of the loop never fails, and what it pushes is no call. *)
Lemma push_match_ok lastIndex m tables :
  exec from_join_regex sql lastIndex = Some m ->
  Forall (not_a_call sql) tables ->
  exists tables', push_match sql m tables = Some tables'
                  /\ Forall (not_a_call sql) tables'.
Proof.
  intros Hm Ht.
  destruct (from_join_match sql lastIndex m Hm)
    as (_ & a & b & Hcap & Hab & Hstop).
  unfold push_match, group. rewrite Hcap.
  destruct (test paren_regex (substring a b sql)) eqn:Hp; simpl;
    [eauto|].
  eexists. split; [reflexivity|].
  apply Forall_app. split; [exact Ht|]. apply Forall_singleton.
  split; cbn [table_name].
  - intros Hin. apply test_lit_found in Hin.
    unfold paren_regex in Hp. congruence.
  - exists a, b. split; [|split; [exact Hab|]].
    + exists lastIndex, m. auto.
    + apply stops_table_not_paren. exact Hstop.
Qed.

(** The loop ends within one turn per code unit left. *)
Lemma scan_loop_total n : forall lastIndex tables,
  length sql - lastIndex < n ->
  Forall (not_a_call sql) tables ->
  exists tables', scan_loop n sql lastIndex tables = Some tables'
                  /\ Forall (not_a_call sql) tables'.
Proof.
  induction n as [|n IH]; intros lastIndex tables Hn Ht; [lia|]. simpl.
  destruct (exec from_join_regex sql lastIndex) as [m|] eqn:Hm; [|eauto].
  destruct (push_match_ok lastIndex m tables Hm Ht) as (tables' & Hp & Ht').
  rewrite Hp.
  destruct (from_join_match sql lastIndex m Hm) as (Hend & _).
  apply IH; [lia|exact Ht'].
Qed.

(** More turns than needed change nothing. *)
Lemma scan_loop_more n : forall lastIndex tables res k,
  scan_loop n sql lastIndex tables = Some res ->
  scan_loop (n + k) sql lastIndex tables = Some res.
Proof.
  induction n as [|n IH]; intros lastIndex tables res k H; [discriminate|].
  simpl in *.
  destruct (exec from_join_regex sql lastIndex) as [m|]; [|exact H].
  destruct (push_match sql m tables) as [tables'|]; [|discriminate].
  apply IH. exact H.
Qed.

Lemma parse_total :
  exists tables, parseSqlAndFindTableNameAndAliases sql = Some tables
                 /\ Forall (not_a_call sql) tables.
Proof.
  unfold parseSqlAndFindTableNameAndAliases.
  apply scan_loop_total; [lia|constructor].
Qed.

End References.

(** ** Facts about [trim] and [split] *)

Section Strings.

Lemma dropWhile_head {A} (p : A -> bool) l a l' :
  dropWhile p l = a :: l' -> p a = false.
Proof.
  induction l as [|b l IH]; simpl; [discriminate|].
  destruct (p b) eqn:E; [exact IH|].
  intros H. inversion H; subst. exact E.
Qed.

Lemma dropWhile_nil_iff {A} (p : A -> bool) l :
  dropWhile p l = [] <-> forallb p l = true.
Proof.
  induction l as [|b l IH]; simpl; [tauto|].
  destruct (p b); simpl; [exact IH|]. split; discriminate.
Qed.

Lemma forallb_dropWhile {A} (p : A -> bool) l :
  forallb p (dropWhile p l) = true <-> forallb p l = true.
Proof.
  induction l as [|b l IH]; simpl; [tauto|].
  destruct (p b) eqn:E; simpl; [exact IH|]. rewrite E. simpl. tauto.
Qed.

Lemma forallb_rev {A} (p : A -> bool) l :
  forallb p (rev l) = true <-> forallb p l = true.
Proof.
  rewrite !forallb_forall. split; intros H x Hx; apply H.
  - apply in_rev in Hx. exact Hx.
  - apply in_rev. exact Hx.
Qed.

Lemma trim_nil_iff s : trim s = [] <-> blank s = true.
Proof.
  unfold trim, trimEnd, trimStart, blank.
  rewrite <- (forallb_dropWhile is_space s).
  rewrite <- (forallb_rev is_space (dropWhile is_space s)).
  rewrite <- dropWhile_nil_iff.
  split; intros H.
  - apply (f_equal (@rev N)) in H. rewrite rev_involutive in H. exact H.
  - rewrite H. reflexivity.
Qed.

Lemma trim_last s s' c : trim s = s' ++ [c] -> is_space c = false.
Proof.
  unfold trim, trimEnd. intros H.
  apply (f_equal (@rev N)) in H.
  rewrite rev_involutive, rev_app_distr in H. simpl in H.
  apply dropWhile_head in H. exact H.
Qed.

(** The last segment of a split: the longest suffix without the
    separator. *)
Lemma split_last sep s :
  exists pre w,
    last (split sep s) = Some w /\ s = pre ++ w /\ (sep ∉ w)
    /\ ((pre = [] /\ split sep s = [w])
        \/ ((exists pre', pre = pre' ++ [sep])
            /\ 2 <= length (split sep s))).
Proof.
  induction s as [|c s IH]; simpl.
  - exists [], []. repeat split; [apply not_elem_of_nil|]. left. tauto.
  - destruct IH as (pre & w & Hlast & Hs & Hw & Hpre).
    destruct (N.eqb_spec c sep) as [->|Hne].
    + exists (sep :: pre), w.
      assert (Hne : split sep s <> [])
        by (intros E; rewrite E in Hlast; discriminate).
      split; [|split; [|split]].
      * destruct (split sep s); [congruence|exact Hlast].
      * rewrite Hs. reflexivity.
      * exact Hw.
      * right. split.
        -- destruct Hpre as [[-> _]|[[pre' ->] _]].
           ++ exists []. reflexivity.
           ++ exists (sep :: pre'). reflexivity.
        -- simpl. destruct (split sep s); [congruence|simpl; lia].
    + destruct Hpre as [[-> Hsplit]|[[pre' ->] Hlen]].
      * rewrite Hsplit. exists [], (c :: w).
        split; [reflexivity|]. split; [rewrite Hs; reflexivity|].
        split; [|left; tauto].
        rewrite not_elem_of_cons. split; [congruence|exact Hw].
      * destruct (split sep s) as [|w0 [|w1 ws]]; simpl in Hlen; [lia|lia|].
        exists (c :: pre' ++ [sep]), w.
        split; [exact Hlast|]. split; [rewrite Hs; reflexivity|].
        split; [exact Hw|]. right. split; [|simpl; lia].
        exists (c :: pre'). reflexivity.
Qed.

Lemma head_slice_last {A} (l : list A) : head (slice_last 1 l) = last l.
Proof.
  unfold slice_last. rewrite head_lookup, lookup_drop, last_lookup.
  f_equal. lia.
Qed.

Lemma or_else_nil (w : jsstring) : or_else (Some w) [] = w.
Proof. destruct w; reflexivity. Qed.

Lemma thisToken_of_split thisLine w :
  last (split (chr " ") (trim thisLine)) = Some w ->
  thisToken_of thisLine = w.
Proof.
  intros H. unfold thisToken_of. rewrite head_slice_last, H.
  apply or_else_nil.
Qed.

End Strings.

(** ** Facts about the handlers *)

Section QueryInterface.

Lemma handleQuery_settled_cursor text :
  resume_keeps_cursor (handleQuery_settled text).
Proof.
  intros [result|err] s Hs; unfold handleQuery_settled, cursor_valid in *.
  - destruct (truthy (Some (trim text))); simpl in *; [|exact Hs].
    rewrite length_app. simpl. lia.
  - simpl. exact Hs.
Qed.

Lemma handleKeyDown_cursor key completionActive s :
  cursor_valid s -> cursor_valid (fst (handleKeyDown key completionActive s)).
Proof.
  intros Hs. unfold handleKeyDown.
  destruct completionActive; [exact Hs|].
  destruct (_ && _); [exact Hs|].
  destruct (Nat.eqb_spec (length (queryHistory s)) 0) as [E|E]; [exact Hs|].
  unfold cursor_valid in *. simpl.
  destruct (bool_decide _); lia.
Qed.

(** The history read of [handleKeyDown] is in range. *)
Lemma handleKeyDown_read_defined s newIndex :
  cursor_valid s ->
  (newIndex = Z.min (historyIndex s + 1)
                    (Z.of_nat (length (queryHistory s)) - 1)
   \/ newIndex = Z.max (historyIndex s - 1) (-1))%Z ->
  newIndex <> (-1)%Z ->
  is_Some (at_index (queryHistory s)
                    (Z.of_nat (length (queryHistory s)) - 1 - newIndex)).
Proof.
  unfold cursor_valid, at_index. intros Hs Hn Hne.
  destruct (Z.ltb_spec (Z.of_nat (length (queryHistory s)) - 1 - newIndex) 0);
    [lia|].
  apply lookup_lt_is_Some. lia.
Qed.

Lemma step_inv c e : component_inv c -> component_inv (step c e).
Proof.
  intros [Hs Hp]. destruct e as [conn|value|key active| |i o]; simpl.
  - split; assumption.
  - split; [exact Hs|exact Hp].
  - split; [apply handleKeyDown_cursor; exact Hs|exact Hp].
  - unfold handleQuery. destruct (selectedConnection c) as [[|c0 cs]|];
      (split; simpl; [exact Hs|]); try exact Hp.
    apply Forall_app. split; [exact Hp|].
    apply Forall_singleton. apply handleQuery_settled_cursor.
  - destruct (inflight c !! i) as [resume|] eqn:E; [|split; assumption].
    split; simpl.
    + eapply Forall_lookup_1 in Hp; [|exact E]. apply Hp. exact Hs.
    + apply Forall_delete. exact Hp.
Qed.

Lemma run_inv events :
  forall c, component_inv c -> component_inv (run c events).
Proof.
  unfold run. induction events as [|e events IH]; intros c Hc; simpl;
    [exact Hc|].
  apply IH. apply step_inv. exact Hc.
Qed.

Lemma mount_inv conn initialState : component_inv (mount conn initialState).
Proof.
  split; [|constructor]. unfold cursor_valid.
  destruct initialState as [[text res]|]; simpl; lia.
Qed.

End QueryInterface.

(** * The claims *)

(** C1 (counterexample). With the text [SELECT c. FROM customers c] and the
    cursor after [c.], the qualifier is [c] and the alias mapping sends it
    to [customers], yet the suggestions hold no Field candidate for the
    columns [id] and [name]. *)
Lemma qualified_columns_missing :
  exists log suggestions,
    provideCompletionItems example_model example_position
    = Some (log, suggestions)
    /\ log_lastTokenBeforeDot log = Some (str "c")
    /\ log_tableNamesAndAliases log !! str "c" = Some (str "customers")
    /\ resolve_table (log_tableNamesAndAliases log)
                     (log_lastTokenBeforeDot log)
       = Some (str "customers")
    /\ ~ includes_columns
           (word_range example_position
              (getWordUntilPosition example_model example_position))
           [str "id"; str "name"] suggestions.
Proof.
  destruct (provideCompletionItems example_model example_position)
    as [[log suggestions]|] eqn:E; [|vm_compute in E; discriminate].
  exists log, suggestions. split; [reflexivity|].
  vm_compute in E. inversion E; subst log suggestions. clear E.
  split; [reflexivity|]. split; [vm_compute; reflexivity|].
  split; [vm_compute; reflexivity|].
  intros H. destruct (H (str "id")) as (item & Hin & Hk & _).
  - apply list_elem_of_here.
  - apply list_elem_of_singleton in Hin. subst item. discriminate.
Qed.

(** C1 (amended). Whatever the text and the cursor, and so whether or not
    the qualifier before the dot names a known alias, the completion result
    is exactly the static candidate with the active replace range; no
    column candidate is added. *)
Theorem completion_is_static_floor (model : ITextModel)
        (position : Position) :
  exists log,
    provideCompletionItems model position
    = Some (log, [myCustomSnippet
                    (word_range position
                       (getWordUntilPosition model position))]).
Proof.
  unfold provideCompletionItems.
  destruct (parse_total (getValue model)) as (tables & Hparse & _).
  rewrite Hparse. eexists. reflexivity.
Qed.

(** C2. On [SELECT * FROM orders WHERE x=1] the scan takes [WHERE] as the
    alias of [orders]: the reserved words are looked for in lower case only,
    and anywhere inside the second identifier, so that [con] is dropped as
    an alias while [WHERE] is kept. *)
Theorem reserved_word_taken_as_alias :
  parseSqlAndFindTableNameAndAliases (str "SELECT * FROM orders WHERE x=1")
  = Some [mkTableRef (str "orders") (str "WHERE")]
  /\ parseSqlAndFindTableNameAndAliases (str "select * from orders where x=1")
     = Some [mkTableRef (str "orders") (str "orders")]
  /\ parseSqlAndFindTableNameAndAliases (str "SELECT * FROM contacts con")
     = Some [mkTableRef (str "contacts") (str "contacts")].
Proof. repeat split; vm_compute; reflexivity. Qed.

(** C3. From an empty history, successful runs of [A], of the empty text
    and of [B] leave the history [A, B]; ArrowUp, ArrowUp, ArrowDown then
    show [B], [A], [B]; and a key pressed while the completion popup is
    visible changes nothing. *)
Theorem history_submit_recall (c0 : char) (cs : jsstring)
        (r1 r2 r3 : QueryResult) :
  let c := run (mount (Some (c0 :: cs)) None) (submitted r1 r2 r3) in
  let up := KeyDown (str "ArrowUp") false in
  let down := KeyDown (str "ArrowDown") false in
  queryHistory (state c) = [str "A"; str "B"]
  /\ queryText (state (run c [up])) = str "B"
  /\ queryText (state (run c [up; up])) = str "A"
  /\ queryText (state (run c [up; up; down])) = str "B"
  /\ forall key s, handleKeyDown key true s = (s, false).
Proof.
  intros c up down.
  split; [reflexivity|]. split; [reflexivity|]. split; [reflexivity|].
  split; [reflexivity|]. intros key s. reflexivity.
Qed.

(** C4 (counterexample). A state that shows a result still shows it after
    a run that fails: the stored result is not cleared. *)
Lemma failed_run_result_not_cleared :
  results stale_state <> None
  /\ results (handleQuery_settled (queryText stale_state)
                (Rejected (ErrorObject (str "syntax error"))) stale_state)
     = results stale_state.
Proof. split; [discriminate|reflexivity]. Qed.

(** C4 (amended). When a run fails, nothing of it is stored: the stored
    result is left as it was, and one toast is shown whose description is
    the message of the error when the rejection is an [Error], else the
    fallback text. *)
Theorem failed_run_result_and_message (c0 : char) (cs : jsstring)
        (s : State) :
  exists resume,
    handleQuery (Some (c0 :: cs)) s = Await (c0 :: cs) (queryText s) resume
    /\ (forall err s', results (resume (Rejected err) s') = results s')
    /\ (forall message s',
          toasts (resume (Rejected (ErrorObject message)) s')
          = toasts s' ++ [mkToast (str "Query Error") message
                                    (str "destructive")])
    /\ (forall v s',
          toasts (resume (Rejected (NonError v)) s')
          = toasts s' ++ [mkToast (str "Query Error")
                                    (str "An error occurred")
                                    (str "destructive")]).
Proof.
  eexists. split; [reflexivity|].
  split; [|split]; intros ? s'; reflexivity.
Qed.



(** C6. With no connection selected (the prop is undefined or the empty
    string) [handleQuery] returns without awaiting anything: no call of
    [Query] is made or left pending, and the validation toast is shown. *)
Theorem run_without_connection conn (s : State) :
  truthy conn = false ->
  handleQuery conn s = Return (toast no_connection_toast s)
  /\ forall pending,
      step (mkComponent conn s pending) Click
      = mkComponent conn (toast no_connection_toast s) pending.
Proof.
  intros H. destruct conn as [[|c0 cs]|]; try discriminate; split; reflexivity.
Qed.

(** C6 at the fresh component without a connection. *)
Lemma run_without_connection_witness :
  truthy None = false
  /\ handleQuery None (initial_state None)
     = Return (toast no_connection_toast (initial_state None)).
Proof.
  split; [reflexivity|].
  apply (run_without_connection None (initial_state None)). reflexivity.
Defined.

(** C7. For every text the scan ends, within one turn of the loop per code
    unit and with the same result for any larger number of turns; every
    match moves [lastIndex] forward; every reference returned has a table
    name without [(], read from a segment of the text that no [(] follows;
    and when nothing matches the result is empty. *)
Theorem scan_terminates_without_calls (sql : jsstring) :
  exists tables,
    parseSqlAndFindTableNameAndAliases sql = Some tables
    /\ (forall k, scan_loop (S (length sql) + k) sql 0 [] = Some tables)
    /\ Forall (not_a_call sql) tables
    /\ (forall lastIndex,
          match exec from_join_regex sql lastIndex with
          | Some m => lastIndex < endIndex (snd m) <= length sql
          | None => True
          end)
    /\ match exec from_join_regex sql 0 with
       | Some _ => True
       | None => tables = []
       end.
Proof.
  destruct (parse_total sql) as (tables & Hp & Ht).
  exists tables. split; [exact Hp|]. split; [|split; [exact Ht|split]].
  - intros k. apply scan_loop_more. exact Hp.
  - intros lastIndex.
    destruct (exec from_join_regex sql lastIndex) as [m|] eqn:E; [|exact I].
    destruct (from_join_match sql lastIndex m E) as (Hend & _). lia.
  - unfold parseSqlAndFindTableNameAndAliases in Hp. simpl in Hp.
    destruct (exec from_join_regex sql 0); [exact I|]. congruence.
Qed.

(** C8 (counterexample). The line prefix [SELECT ] ends in white space and
    its token is [SELECT], not the empty string; and the token of [a<TAB>b]
    is the whole of it, white space included. *)
Lemma token_after_trailing_space :
  ends_in_whitespace (str "SELECT ") = true
  /\ thisToken_of (str "SELECT ") = str "SELECT"
  /\ thisToken_of [chr "a"; 9%N; chr "b"] = [chr "a"; 9%N; chr "b"].
Proof. repeat split. Qed.

(** C8 (amended). The token is the last piece of the trimmed line prefix
    when it is split at the space character U+0020: a suffix of the trimmed
    prefix without a space, preceded by a space or by nothing. It is the
    empty string exactly when the prefix is blank. *)
Theorem thisToken_last_space_delimited (thisLine : jsstring) :
  (exists pre,
      trim thisLine = pre ++ thisToken_of thisLine
      /\ (chr " " ∉ thisToken_of thisLine)
      /\ (pre = [] \/ exists pre', pre = pre' ++ [chr " "]))
  /\ (thisToken_of thisLine = [] <-> blank thisLine = true).
Proof.
  destruct (split_last (chr " ") (trim thisLine))
    as (pre & w & Hlast & Hs & Hw & Hpre).
  rewrite (thisToken_of_split _ _ Hlast). split.
  - exists pre. split; [exact Hs|]. split; [exact Hw|].
    destruct Hpre as [[-> _]|[Hp _]]; [left; reflexivity|right; exact Hp].
  - rewrite <- trim_nil_iff. split.
    + intros ->. rewrite app_nil_r in Hs.
      destruct Hpre as [[-> _]|[[pre' ->] _]]; [exact Hs|].
      apply trim_last in Hs. discriminate.
    + intros E. rewrite E in Hs. symmetry in Hs.
      apply app_eq_nil in Hs. tauto.
Qed.

(** C9. After any sequence of events (edits, keys, runs that start and
    settle in any order, changes of connection) the history cursor lies
    between -1 and the last index of the history; ArrowUp moves it to the
    smaller of the next index and the oldest entry, ArrowDown to the larger
    of the previous index and -1. *)
Theorem history_cursor_in_range conn initialState (events : list Event) :
  let s := state (run (mount conn initialState) events) in
  let len := Z.of_nat (length (queryHistory s)) in
  (-1 <= historyIndex s <= len - 1
   /\ historyIndex (fst (handleKeyDown (str "ArrowUp") false s))
      = Z.min (historyIndex s + 1) (len - 1)
   /\ historyIndex (fst (handleKeyDown (str "ArrowDown") false s))
      = Z.max (historyIndex s - 1) (-1))%Z.
Proof.
  intros s len.
  destruct (run_inv events _ (mount_inv conn initialState)) as [Hs _].
  fold s in Hs. unfold cursor_valid in Hs. fold len in Hs.
  split; [exact Hs|].
  unfold handleKeyDown. cbn [negb andb bool_decide].
  change (bool_decide (str "ArrowUp" = str "ArrowUp")) with true.
  change (bool_decide (str "ArrowDown" = str "ArrowUp")) with false.
  change (bool_decide (str "ArrowDown" = str "ArrowDown")) with true.
  cbn [negb andb].
  destruct (Nat.eqb_spec (length (queryHistory s)) 0) as [E|E]; simpl.
  - subst len. rewrite E in *. simpl in *. lia.
  - split; reflexivity.
Qed.

(** C10. When the promise of [Query] is rejected, the history and its
    cursor are those of before: nothing is appended and the cursor is not
    reset. *)
Theorem failed_run_keeps_history (c0 : char) (cs : jsstring) (s : State) :
  exists resume,
    handleQuery (Some (c0 :: cs)) s = Await (c0 :: cs) (queryText s) resume
    /\ forall err s',
        queryHistory (resume (Rejected err) s') = queryHistory s'
        /\ historyIndex (resume (Rejected err) s') = historyIndex s'.
Proof.
  eexists. split; [reflexivity|]. intros err s'. split; reflexivity.
Qed.

(** ** Facts used by the further properties *)

Section Semantics.
Variable input : jsstring.

Lemma RepeatMatcher_sound r m c :
  (forall x d z, m x d = Some z -> endIndex x <= length input ->
     exists y, d y = Some z /\ matches input r (endIndex x) (endIndex y)
               /\ endIndex y <= length input /\ frame (groups r) x y) ->
  forall n x z,
    RepeatMatcher m (groups r) c n x = Some z -> endIndex x <= length input ->
    exists y, c y = Some z /\ matches input (Star r) (endIndex x) (endIndex y)
              /\ endIndex y <= length input /\ frame (groups r) x y.
Proof.
  intros Hm. induction n as [|n IH]; intros x z H Hx; cbn [RepeatMatcher] in H.
  - exists x. split; [exact H|]. split; [constructor|].
    split; [lia|]. intros i _. reflexivity.
  - destruct (m (clear_captures (groups r) x) _) as [z'|] eqn:E.
    + inversion H; subst z'. clear H.
      apply Hm in E as (y & Hd & Hmat & Hle & Hfr); [|exact Hx].
      cbn [clear_captures endIndex] in Hmat.
      destruct (Nat.eqb (endIndex y) (endIndex x)); [discriminate|].
      apply IH in Hd as (y' & Hc & Hmat' & Hle' & Hfr'); [|lia].
      exists y'. split; [exact Hc|].
      split; [eapply matches_Star_more; eassumption|]. split; [lia|].
      intros i Hi. rewrite Hfr', Hfr by exact Hi.
      apply clear_captures_frame. exact Hi.
    + exists x. split; [exact H|]. split; [constructor|].
      split; [lia|]. intros i _. reflexivity.
Qed.

(** The backtracking matcher only finds matches of the pattern. *)
Lemma matcher_sound r :
  forall x c z,
    matcher input r x c = Some z -> endIndex x <= length input ->
    exists y, c y = Some z /\ matches input r (endIndex x) (endIndex y)
              /\ endIndex y <= length input /\ frame (groups r) x y.
Proof.
  induction r as [|p| | |r1 IH1 r2 IH2|r1 IH1 r2 IH2|r IH|r IH|n r IH];
    intros x c z H Hx; cbn [matcher] in H.
  - exists x. split; [exact H|]. split; [constructor|]. split; [lia|].
    intros i _. reflexivity.
  - destruct (input !! endIndex x) as [ch|] eqn:E; [|discriminate].
    destruct (p ch) eqn:Hp; [|discriminate].
    exists (advance x). split; [exact H|].
    split; [econstructor; eassumption|].
    apply lookup_lt_Some in E. split; [simpl; lia|].
    intros i _. reflexivity.
  - destruct (word_boundary _ _) eqn:E; [|discriminate].
    exists x. split; [exact H|]. split; [constructor; exact E|].
    split; [lia|]. intros i _. reflexivity.
  - destruct (Nat.eqb_spec (endIndex x) (length input)) as [E|E];
      [|discriminate].
    exists x. split; [exact H|]. split; [rewrite E; constructor|].
    split; [lia|]. intros i _. reflexivity.
  - apply IH1 in H as (y & H & Hm1 & Hle & Hfr); [|exact Hx].
    apply IH2 in H as (y' & H & Hm2 & Hle' & Hfr'); [|lia].
    exists y'. split; [exact H|].
    split; [econstructor; eassumption|]. split; [lia|].
    intros i Hi. cbn [groups] in Hi. rewrite not_elem_of_app in Hi.
    destruct Hi as [Hi1 Hi2]. rewrite Hfr', Hfr; auto.
  - destruct (matcher input r1 x c) as [z'|] eqn:E.
    + inversion H; subst z'.
      apply IH1 in E as (y & H' & Hm1 & Hle & Hfr); [|exact Hx].
      exists y. split; [exact H'|].
      split; [apply matches_Alt_l; exact Hm1|]. split; [lia|].
      intros i Hi. cbn [groups] in Hi. rewrite not_elem_of_app in Hi.
      apply Hfr. tauto.
    + apply IH2 in H as (y & H' & Hm2 & Hle & Hfr); [|exact Hx].
      exists y. split; [exact H'|].
      split; [apply matches_Alt_r; exact Hm2|]. split; [lia|].
      intros i Hi. cbn [groups] in Hi. rewrite not_elem_of_app in Hi.
      apply Hfr. tauto.
  - eapply RepeatMatcher_sound in H; [exact H| |exact Hx].
    intros x' d z' H' Hx'. apply IH; assumption.
  - destruct (matcher input r _ _) as [z'|] eqn:E.
    + inversion H; subst z'.
      apply IH in E as (y & Hd & Hm1 & Hle & Hfr); [|exact Hx].
      cbn [clear_captures endIndex] in Hm1.
      destruct (Nat.eqb _ _); [discriminate|].
      exists y. split; [exact Hd|].
      split; [apply matches_Opt_some; exact Hm1|]. split; [lia|].
      intros i Hi. rewrite Hfr by exact Hi.
      apply clear_captures_frame. exact Hi.
    + exists x. split; [exact H|]. split; [constructor|]. split; [lia|].
      intros i _. reflexivity.
  - apply IH in H as (y & Hc & Hm1 & Hle & Hfr); [|exact Hx].
    exists (set_capture n (endIndex x, endIndex y) y).
    split; [exact Hc|]. split; [constructor; exact Hm1|].
    split; [simpl; lia|].
    intros i Hi. cbn [groups] in Hi. rewrite not_elem_of_cons in Hi.
    destruct Hi as [Hi1 Hi2].
    apply Nat.eqb_neq in Hi1. cbn. rewrite Hi1. apply Hfr. exact Hi2.
Qed.

(** A capturing group followed by the rest of the pattern. *)
Lemma matcher_Group_sound n r x c z :
  matcher input (Group n r) x c = Some z -> endIndex x <= length input ->
  exists y, c (set_capture n (endIndex x, endIndex y) y) = Some z
            /\ matches input r (endIndex x) (endIndex y)
            /\ endIndex y <= length input /\ frame (groups r) x y.
Proof.
  intros H Hx. cbn [matcher] in H.
  apply matcher_sound in H as (y & H & Hm & Hle & Hfr); [|exact Hx].
  exists y. auto.
Qed.

Lemma matches_le r i j : matches input r i j -> i <= j.
Proof. induction 1; lia. Qed.

Lemma matches_Star_Chr p i j :
  matches input (Star (Chr p)) i j ->
  forall k, i <= k < j -> exists ch, input !! k = Some ch /\ p ch = true.
Proof.
  remember (Star (Chr p)) as r eqn:Er. intros H.
  induction H; try discriminate; inversion Er; subst; intros k' Hk; [lia|].
  inversion H; subst.
  destruct (Nat.eq_dec k' i) as [->|Hne]; [eauto|].
  apply IHmatches2; [reflexivity|lia].
Qed.

Lemma matches_Plus_Chr p i j :
  matches input (Plus (Chr p)) i j ->
  i < j
  /\ forall k, i <= k < j -> exists ch, input !! k = Some ch /\ p ch = true.
Proof.
  unfold Plus. intros H. inversion H; subst.
  match goal with
  | H1 : matches _ (Chr p) _ _, H2 : matches _ (Star _) _ _ |- _ =>
      inversion H1; subst; pose proof (matches_le _ _ _ H2) as Hle;
      pose proof (matches_Star_Chr _ _ _ H2) as Hall
  end.
  split; [lia|]. intros k Hk.
  destruct (Nat.eq_dec k i) as [->|Hne]; [eauto|]. apply Hall. lia.
Qed.

Lemma substring_Forall (P : N -> Prop) i j :
  (forall k, i <= k < j -> exists ch, input !! k = Some ch /\ P ch) ->
  Forall P (substring i j input).
Proof.
  intros H. apply Forall_lookup. intros k x Hk. unfold substring in Hk.
  apply lookup_take_Some in Hk as [Hk Hlt].
  rewrite lookup_drop in Hk.
  destruct (H (i + k)) as (ch & Hch & HP); [lia|]. congruence.
Qed.

Lemma substring_length i j :
  j <= length input -> length (substring i j input) = j - i.
Proof.
  intros H. unfold substring. rewrite length_take, length_drop. lia.
Qed.

Lemma substring_app i j k :
  i <= j <= k ->
  substring i k input = substring i j input ++ substring j k input.
Proof.
  intros H. unfold substring.
  replace (k - i) with ((j - i) + (k - j)) by lia.
  rewrite <- take_take_drop, drop_drop.
  replace (i + (j - i)) with j by lia. reflexivity.
Qed.

Lemma substring_one i ch :
  input !! i = Some ch -> substring i (S i) input = [ch].
Proof.
  intros H. unfold substring. rewrite (drop_S _ _ _ H).
  replace (S i - i) with 1 by lia. reflexivity.
Qed.

Lemma substring_whole_from i :
  substring i (length input) input = drop i input.
Proof.
  unfold substring. apply take_ge. rewrite length_drop. lia.
Qed.

Lemma substring_from_0 j : substring 0 j input = take j input.
Proof. unfold substring. rewrite drop_0. f_equal. lia. Qed.

End Semantics.

Section Shape.
Variable sql : jsstring.

Lemma frame_nil x y i : frame [] x y -> captures y i = captures x i.
Proof. intros H. apply H. apply not_elem_of_nil. Qed.

(** The two groups of a match of the FROM/JOIN pattern. *)
Lemma from_join_groups lastIndex m :
  exec from_join_regex sql lastIndex = Some m ->
  exists a b,
    captures (snd m) 1 = Some (a, b)
    /\ lastIndex <= fst m /\ fst m + 5 <= a /\ a < b
    /\ b <= endIndex (snd m) <= length sql
    /\ matches sql table_inner a b
    /\ (captures (snd m) 2 = None
        \/ exists a2 b2, captures (snd m) 2 = Some (a2, b2)
                         /\ b <= a2 /\ b2 <= length sql
                         /\ matches sql (Plus not_space_comma) a2 b2).
Proof.
  intros H. apply exec_inv in H as [Hi H]. destruct m as [i z].
  cbn [fst snd] in *.
  unfold from_join_regex in H.
  change (matcher sql WordB (initial i) (fun y1 =>
            matcher sql (Alt (word_i "FROM") (word_i "JOIN")) y1 (fun y2 =>
              matcher sql (Plus space) y2 (fun y3 =>
                matcher sql table_pattern y3 (fun y4 =>
                  matcher sql alias_pattern y4 accept)))) = Some z) in H.
  apply matcher_inv in H as (y1 & H & Hle1 & Hf1); [|simpl; lia].
  apply matcher_inv in H as (y2 & H & Hle2 & Hf2); [|lia].
  apply matcher_inv in H as (y3 & H & Hle3 & Hf3); [|lia].
  cbn [minlen word_i lit_i Nat.min Nat.add Plus space] in Hle1, Hle2, Hle3.
  cbn [endIndex initial] in Hle1.
  assert (Hc3 : forall k, captures y3 k = None).
  { intros k. rewrite (frame_nil _ _ k Hf3), (frame_nil _ _ k Hf2),
      (frame_nil _ _ k Hf1). reflexivity. }
  unfold table_pattern in H. fold table_inner in H.
  apply matcher_Group_sound in H as (y4 & H & Hm4 & Hle4 & Hf4); [|lia].
  pose proof (matches_le _ _ _ _ Hm4) as Hlt4.
  assert (Hlt4' : endIndex y3 < endIndex y4).
  { unfold table_inner in Hm4. inversion Hm4; subst.
    match goal with
    | H1 : matches _ (Plus _) _ _, H2 : matches _ (Opt _) _ _ |- _ =>
        apply matches_Plus_Chr in H1 as [H1 _];
        apply matches_le in H2; lia
    end. }
  unfold alias_pattern in H.
  set (x5 := set_capture 1 (endIndex y3, endIndex y4) y4) in H.
  change (matcher sql (Star space) x5 (fun y6 =>
            matcher sql (Opt (word_i "AS")) y6 (fun y7 =>
              matcher sql (Star space) y7 (fun y8 =>
                matcher sql (Opt (Group 2 (Plus not_space_comma))) y8
                        accept))) = Some z) in H.
  apply matcher_sound in H as (y6 & H & Hm6 & Hle6 & Hf6); [|simpl; lia].
  apply matcher_sound in H as (y7 & H & Hm7 & Hle7 & Hf7); [|lia].
  apply matcher_sound in H as (y8 & H & Hm8 & Hle8 & Hf8); [|lia].
  apply matches_le in Hm6, Hm7, Hm8. cbn [endIndex x5 set_capture] in Hm6.
  assert (Hc8 : forall k, captures y8 k = captures x5 k).
  { intros k. rewrite (frame_nil _ _ k Hf8), (frame_nil _ _ k Hf7),
      (frame_nil _ _ k Hf6). reflexivity. }
  assert (Hx5_1 : captures x5 1 = Some (endIndex y3, endIndex y4))
    by reflexivity.
  assert (Hx5_2 : captures x5 2 = None).
  { cbn. rewrite (frame_nil _ _ 2 Hf4). apply Hc3. }
  cbn [matcher] in H.
  destruct (matcher sql (Plus not_space_comma) _ _) as [z'|] eqn:E.
  - inversion H; subst z'. clear H.
    apply matcher_sound in E as (y9 & E & Hm9 & Hle9 & Hf9);
      [|cbn; lia].
    cbn [clear_captures endIndex set_capture] in E, Hm9.
    destruct (Nat.eqb (endIndex y9) (endIndex y8)); [discriminate|].
    inversion E; subst z. clear E.
    exists (endIndex y3), (endIndex y4).
    split.
    { cbn. rewrite (frame_nil _ _ 1 Hf9). cbn. rewrite Hc8. exact Hx5_1. }
    pose proof (matches_le _ _ _ _ Hm9).
    split; [lia|]. split; [lia|]. split; [exact Hlt4'|].
    split; [cbn; lia|]. split; [exact Hm4|].
    right. exists (endIndex y8), (endIndex y9).
    split; [reflexivity|]. split; [lia|]. split; [lia|exact Hm9].
  - inversion H; subst z. clear H.
    exists (endIndex y3), (endIndex y4).
    split; [rewrite Hc8; exact Hx5_1|].
    split; [lia|]. split; [lia|]. split; [exact Hlt4'|].
    split; [lia|]. split; [exact Hm4|].
    left. rewrite Hc8. exact Hx5_2.
Qed.

End Shape.

Section Scan.
Variable sql : jsstring.

Lemma spaced_mono limit lo lo' segs :
  lo' <= lo -> spaced limit lo segs -> spaced limit lo' segs.
Proof.
  destruct segs as [|[a b] rest]; simpl; [tauto|].
  intros Hle (Ha & Hb & Hrest). split; [lia|]. split; [exact Hb|exact Hrest].
Qed.

Lemma spaced_count limit segs : forall lo,
  spaced limit lo segs -> lo + 6 * length segs <= limit \/ segs = [].
Proof.
  induction segs as [|[a b] rest IH]; intros lo H; [right; reflexivity|].
  left. simpl in H. destruct H as (Ha & Hb & Hrest).
  destruct (IH b Hrest) as [Hle| ->]; simpl in *; lia.
Qed.

Lemma not_space_comma_spec c :
  negb (is_space c || N.eqb c (chr ",")) = true ->
  is_space c = false /\ c <> chr ",".
Proof.
  intros H. apply negb_true_iff, orb_false_iff in H as [H1 H2].
  split; [exact H1|]. apply N.eqb_neq. exact H2.
Qed.

Lemma not_space_dot_spec c :
  negb (is_space c || N.eqb c (chr ".")) = true ->
  is_space c = false /\ c <> chr ".".
Proof.
  intros H. apply negb_true_iff, orb_false_iff in H as [H1 H2].
  split; [exact H1|]. apply N.eqb_neq. exact H2.
Qed.

(** What one turn of the loop pushes. *)
Lemma push_match_entry lastIndex m tables tables' :
  exec from_join_regex sql lastIndex = Some m ->
  push_match sql m tables = Some tables' ->
  lastIndex < endIndex (snd m) <= length sql
  /\ (tables' = tables
      \/ exists t a b,
           tables' = tables ++ [t] /\ entry sql t (a, b)
           /\ lastIndex + 5 <= a /\ a < b <= endIndex (snd m)).
Proof.
  intros Hm Hp.
  destruct (from_join_groups sql lastIndex m Hm)
    as (a & b & Hc1 & Hi & Ha & Hab & Hb & Hmat & Hc2).
  split; [lia|].
  unfold push_match, group in Hp. rewrite Hc1 in Hp.
  destruct (test paren_regex (substring a b sql)); cbn [negb] in Hp;
    [left; congruence|].
  right. inversion Hp; subst tables'. clear Hp.
  eexists. exists a, b. split; [reflexivity|].
  split; [|lia].
  split; [reflexivity|]. split; [exact Hmat|].
  unfold alias_ok. cbn [alias table_name].
  destruct Hc2 as [Hc2|(a2 & b2 & Hc2 & Hle & Hb2 & Hm2)]; rewrite Hc2.
  - left. reflexivity.
  - apply matches_Plus_Chr in Hm2 as [Hlt Hall].
    assert (Hlen : length (substring a2 b2 sql) = b2 - a2)
      by (apply substring_length; exact Hb2).
    destruct (substring a2 b2 sql) as [|c s] eqn:Es; [simpl in Hlen; lia|].
    cbn [truthy andb].
    destruct (test reserved_regex (c :: s)) eqn:Et; cbn [or_else];
      [left; reflexivity|].
    right. split; [discriminate|]. split; [|exact Et].
    rewrite <- Es. apply substring_Forall. intros k Hk.
    destruct (Hall k Hk) as (ch & Hch & Hp). exists ch. split; [exact Hch|].
    apply not_space_comma_spec. exact Hp.
Qed.

(** The references the loop adds, with the segments they were read from. *)
Lemma scan_loop_entries n : forall lastIndex tables res,
  scan_loop n sql lastIndex tables = Some res ->
  exists new segs,
    res = tables ++ new /\ Forall2 (entry sql) new segs
    /\ spaced (length sql) lastIndex segs.
Proof.
  induction n as [|n IH]; intros lastIndex tables res H; [discriminate|].
  cbn [scan_loop] in H.
  destruct (exec from_join_regex sql lastIndex) as [m|] eqn:Hm.
  2:{ inversion H; subst res. exists [], []. rewrite app_nil_r.
      split; [reflexivity|]. split; [constructor|exact I]. }
  destruct (push_match sql m tables) as [tables'|] eqn:Hp; [|discriminate].
  destruct (push_match_entry _ _ _ _ Hm Hp) as (Hend & Hcase).
  apply IH in H as (new & segs & -> & Hent & Hsp).
  destruct Hcase as [->|(t & a & b & -> & Het & Ha & Hb)].
  - exists new, segs. split; [reflexivity|]. split; [exact Hent|].
    eapply spaced_mono; [|exact Hsp]. lia.
  - exists (t :: new), ((a, b) :: segs).
    split; [rewrite <- (assoc_L (++)); reflexivity|].
    split; [constructor; assumption|].
    cbn [spaced]. split; [exact Ha|]. split; [lia|].
    eapply spaced_mono; [|exact Hsp]. lia.
Qed.

Lemma parse_entries tables :
  parseSqlAndFindTableNameAndAliases sql = Some tables ->
  exists segs, Forall2 (entry sql) tables segs
               /\ spaced (length sql) 0 segs.
Proof.
  unfold parseSqlAndFindTableNameAndAliases. intros H.
  apply scan_loop_entries in H as (new & segs & -> & H1 & H2).
  exists segs. auto.
Qed.

Lemma Forall2_Forall_l {A B} (P : A -> B -> Prop) (Q : A -> Prop) l k :
  Forall2 P l k -> (forall x y, P x y -> Q x) -> Forall Q l.
Proof. induction 1; intros HQ; constructor; eauto. Qed.

(** The shape of a match of the inside of the table-name group. *)
Lemma table_inner_shape a b :
  matches sql table_inner a b -> b <= length sql ->
  exists first rest,
    substring a b sql = first ++ rest /\ plain_part first
    /\ (rest = [] \/ exists second,
                       rest = chr "." :: second /\ plain_part second).
Proof.
  unfold table_inner. intros H Hb. inversion H; subst. clear H.
  match goal with
  | H1 : matches _ (Plus _) _ ?j, H2 : matches _ (Opt _) _ _ |- _ =>
      rename H1 into Hfirst; rename H2 into Hopt; rename j into j1
  end.
  pose proof (matches_le _ _ _ _ Hopt) as Hle.
  apply matches_Plus_Chr in Hfirst as [Hlt Hall].
  assert (Hplain : forall i j,
            i < j <= length sql ->
            (forall k, i <= k < j ->
               exists ch, sql !! k = Some ch
                 /\ negb (is_space ch || N.eqb ch (chr ".")) = true) ->
            plain_part (substring i j sql)).
  { intros i j Hij Hk. split.
    - intros E. apply (f_equal length) in E.
      rewrite substring_length in E by lia. simpl in E. lia.
    - apply substring_Forall. intros k Hkk.
      destruct (Hk k Hkk) as (ch & Hch & Hp). exists ch.
      split; [exact Hch|]. apply not_space_dot_spec. exact Hp. }
  exists (substring a j1 sql), (substring j1 b sql).
  split; [apply substring_app; lia|].
  split; [apply Hplain; [lia|exact Hall]|].
  inversion Hopt; subst.
  - left. unfold substring. rewrite Nat.sub_diag. reflexivity.
  - right.
    match goal with H : matches _ (Seq _ _) _ _ |- _ =>
      inversion H; subst; clear H end.
    match goal with
    | H1 : matches _ (lit _) _ _, H2 : matches _ (Plus _) _ _ |- _ =>
        unfold lit in H1; inversion H1; subst; clear H1;
        apply matches_Plus_Chr in H2 as [Hlt2 Hall2]
    end.
    exists (substring (S j1) b sql).
    split.
    + rewrite (substring_app sql j1 (S j1) b) by lia.
      match goal with H : sql !! j1 = Some ?ch, Hc : N.eqb _ ?ch = true |- _ =>
        rewrite (substring_one sql j1 ch H);
        apply N.eqb_eq in Hc; rewrite <- Hc end.
      reflexivity.
    + apply Hplain; [lia|exact Hall2].
Qed.

End Scan.

Section Completeness.
Variable input : jsstring.

Lemma search_complete r n : forall i j,
  i <= j < i + n ->
  is_Some (matcher input r (initial j) accept) ->
  is_Some (search input r n i).
Proof.
  induction n as [|n IH]; intros i j Hj Hs; [lia|]. cbn [search].
  destruct (matcher input r (initial i) accept) as [z|] eqn:E; [eauto|].
  apply (IH (S i) j); [|exact Hs].
  assert (j <> i) by (intros ->; rewrite E in Hs; destruct Hs; discriminate).
  lia.
Qed.

Lemma search_none r n : forall i,
  (forall j, matcher input r (initial j) accept = None) ->
  search input r n i = None.
Proof.
  induction n as [|n IH]; intros i H; [reflexivity|]. cbn [search].
  rewrite H. apply IH. exact H.
Qed.

Lemma matcher_word w : forall l1 l2 caps c,
  input = l1 ++ str w ++ l2 ->
  matcher input (word w) (mkState (length l1) caps) c
  = c (mkState (length l1 + length (str w)) caps).
Proof.
  induction w as [|a w IH]; intros l1 l2 caps c E; cbn [word matcher].
  - cbn. rewrite Nat.add_0_r. reflexivity.
  - unfold lit. cbn [matcher endIndex].
    assert (Hl : input !! length l1 = Some (chr a)).
    { rewrite E. apply list_lookup_middle. reflexivity. }
    rewrite Hl, N.eqb_refl.
    change (advance (mkState (length l1) caps))
      with (mkState (S (length l1)) caps).
    replace (S (length l1)) with (length (l1 ++ [chr a]))
      by (rewrite length_app; simpl; lia).
    rewrite (IH (l1 ++ [chr a]) l2).
    + f_equal. f_equal. rewrite length_app. unfold str.
      cbn [list_ascii_of_string List.map length]. lia.
    + rewrite E. rewrite <- (assoc_L (++)). reflexivity.
Qed.

Lemma test_reserved_occurs w :
  w ∈ reserved_words -> occurs_in (str w) input ->
  test reserved_regex input = true.
Proof.
  intros Hw (l1 & l2 & E). unfold test, exec.
  rewrite (proj2 (Nat.ltb_ge (length input) 0)) by lia.
  assert (Hs : is_Some (search input reserved_regex
                               (S (length input - 0)) 0)).
  { apply (search_complete reserved_regex _ 0 (length l1)).
    { rewrite E, length_app. lia. }
    unfold reserved_regex, initial. cbn [matcher].
    unfold reserved_words in Hw.
    repeat (apply elem_of_cons in Hw as [->|Hw];
            [rewrite !(matcher_word _ l1 l2 _ _ E);
             repeat (match goal with
                     | |- context [matcher input (word ?v) ?x ?c] =>
                         destruct (matcher input (word v) x c); [eauto|]
                     end);
             unfold accept; eauto|]).
    apply elem_of_nil in Hw. contradiction. }
  destruct Hs as [m Hm]. rewrite Hm. reflexivity.
Qed.

End Completeness.

Section NoKeyword.
Variable sql : jsstring.

Lemma lit_i_cases k ch :
  ((ch <? 128) && (upper ch =? upper k))%N = true ->
  ch = upper k \/ ch = (upper k + 32)%N.
Proof.
  intros H. apply andb_true_iff in H as [_ H]. apply N.eqb_eq in H.
  unfold upper in H at 1.
  destruct ((97 <=? ch) && (ch <=? 122))%N eqn:E; [|left; exact H].
  apply andb_true_iff in E as [E1 E2].
  apply N.leb_le in E1, E2. right. lia.
Qed.

Lemma from_join_starts_with_letter i z :
  matcher sql from_join_regex (initial i) accept = Some z ->
  exists ch, sql !! i = Some ch
             /\ (ch = chr "F" \/ ch = chr "f" \/ ch = chr "J" \/ ch = chr "j").
Proof.
  intros H.
  destruct (le_lt_dec i (length sql)) as [Hi|Hi].
  2:{ unfold from_join_regex in H. cbn [matcher] in H.
      destruct (word_boundary _ _); [|discriminate].
      cbn [word_i lit_i matcher endIndex initial] in H.
      rewrite (proj2 (lookup_ge_None sql i)) in H by lia. discriminate. }
  apply matcher_sound in H as (y & _ & Hm & _); [|exact Hi].
  cbn [endIndex initial] in Hm. unfold from_join_regex in Hm.
  inversion Hm; subst. clear Hm.
  match goal with H : matches _ WordB _ _ |- _ => inversion H; subst end.
  match goal with H : matches _ (Seq (Alt _ _) _) _ _ |- _ =>
    inversion H; subst; clear H end.
  match goal with H : matches _ (Alt _ _) _ _ |- _ =>
    inversion H; subst; clear H end.
  - match goal with H : matches _ (Seq (lit_i _) _) _ _ |- _ =>
      inversion H; subst; clear H end.
    match goal with H : matches _ (lit_i _) _ _ |- _ =>
      unfold lit_i in H; inversion H; subst; clear H end.
    match goal with H : (_ && _)%N = true |- _ =>
      apply lit_i_cases in H; vm_compute in H end.
    eexists. split; [eassumption|]. vm_compute. tauto.
  - match goal with H : matches _ (Seq (lit_i _) _) _ _ |- _ =>
      inversion H; subst; clear H end.
    match goal with H : matches _ (lit_i _) _ _ |- _ =>
      unfold lit_i in H; inversion H; subst; clear H end.
    match goal with H : (_ && _)%N = true |- _ =>
      apply lit_i_cases in H; vm_compute in H end.
    eexists. split; [eassumption|]. vm_compute. tauto.
Qed.

End NoKeyword.

Section Qualifier.
Variable token : jsstring.

Lemma run_end_exact p e : forall d,
  (forall k, e <= k < e + d ->
     exists ch, token !! k = Some ch /\ p ch = true) ->
  match token !! (e + d) with Some a => p a = false | None => True end ->
  run_end p token e = e + d.
Proof.
  intros d. revert e. induction d as [|d IH]; intros e Hall Hstop.
  - rewrite Nat.add_0_r in *. apply run_end_here. exact Hstop.
  - destruct (Hall e) as (ch & Hch & Hp); [lia|].
    rewrite (run_end_step token p e ch Hch Hp).
    rewrite (IH (S e)); [lia| |].
    + intros k Hk. apply Hall. lia.
    + replace (S e + d) with (e + S d) by lia. exact Hstop.
Qed.

(** [p*] first tries the rest of the pattern after the longest run. *)
Lemma RepeatMatcher_Chr_first p c m z :
  (forall x d, m x d = matcher token (Chr p) x d) ->
  forall n e caps, length token - e <= n ->
    c (mkState (run_end p token e) caps) = Some z ->
    RepeatMatcher m [] c n (mkState e caps) = Some z.
Proof.
  intros Hm. induction n as [|n IH]; intros e caps Hn Hc;
    cbn [RepeatMatcher].
  - rewrite run_end_here in Hc; [exact Hc|].
    rewrite (proj2 (lookup_ge_None token e)) by lia. exact I.
  - change (clear_captures [] (mkState e caps)) with (mkState e caps).
    rewrite Hm. cbn [matcher endIndex].
    destruct (token !! e) as [a|] eqn:He.
    + destruct (p a) eqn:Hp.
      * cbn [advance endIndex captures].
        rewrite (proj2 (Nat.eqb_neq (S e) e)) by lia.
        apply lookup_lt_Some in He as Hlt.
        change (advance (mkState e caps)) with (mkState (S e) caps).
        rewrite (IH (S e) caps); [reflexivity|lia|].
        rewrite <- (run_end_step token p e a He Hp). exact Hc.
      * rewrite run_end_here in Hc; [exact Hc|]. rewrite He. exact Hp.
    + rewrite run_end_here in Hc; [exact Hc|]. rewrite He. exact I.
Qed.

Lemma matcher_Star_Chr_first p c e caps z :
  c (mkState (run_end p token e) caps) = Some z ->
  matcher token (Star (Chr p)) (mkState e caps) c = Some z.
Proof.
  intros Hc.
  change (matcher token (Star (Chr p)) (mkState e caps) c)
    with (RepeatMatcher (matcher token (Chr p)) [] c (length token - e)
                        (mkState e caps)).
  apply (RepeatMatcher_Chr_first p c); [reflexivity|cbn; lia|exact Hc].
Qed.

Lemma substring_all : substring 0 (length token) token = token.
Proof. rewrite substring_from_0. apply take_ge. lia. Qed.

End Qualifier.

Section QualifierComplete.
Variables q after : jsstring.
Let token : jsstring := q ++ chr "." :: after.
Hypothesis q_nonempty : q <> [].
Hypothesis q_word : Forall (fun c => is_word c = true) q.
Hypothesis after_word : Forall (fun c => is_word c = true) after.

Lemma token_lookup_q k :
  k < length q -> exists ch, token !! k = Some ch /\ is_word ch = true.
Proof.
  intros Hk. destruct (lookup_lt_is_Some_2 q k Hk) as [ch Hch].
  exists ch. split.
  - unfold token. rewrite lookup_app_l by exact Hk. exact Hch.
  - rewrite Forall_lookup in q_word. eapply q_word. exact Hch.
Qed.

Lemma token_lookup_dot : token !! length q = Some (chr ".").
Proof. unfold token. apply list_lookup_middle. reflexivity. Qed.

Lemma token_lookup_after k :
  length q < k < length token ->
  exists ch, token !! k = Some ch /\ is_word ch = true.
Proof.
  intros Hk. unfold token in *. rewrite length_app in Hk. cbn in Hk.
  rewrite lookup_app_r by lia.
  destruct (k - length q) as [|d] eqn:Ed; [lia|]. cbn.
  destruct (lookup_lt_is_Some_2 after d) as [ch Hch]; [lia|].
  exists ch. split; [exact Hch|].
  rewrite Forall_lookup in after_word. eapply after_word. exact Hch.
Qed.

Lemma matcher_Chr_here p e caps c ch :
  token !! e = Some ch -> p ch = true ->
  matcher token (Chr p) (mkState e caps) c = c (mkState (S e) caps).
Proof. intros H Hp. cbn [matcher endIndex]. rewrite H, Hp. reflexivity. Qed.

Lemma before_dot_match :
  matcher token before_dot_regex (initial 0) accept
  = Some (set_capture 1 (0, length q)
            (mkState (length token) (fun _ => None))).
Proof.
  assert (Hq : 0 < length q) by (destruct q; [congruence|simpl; lia]).
  assert (Hlen : length token = length q + S (length after)).
  { unfold token. rewrite length_app. reflexivity. }
  unfold before_dot_regex, initial.
  change (matcher token (Chr is_word) (mkState 0 (fun _ => None))
            (fun y1 => matcher token (Star (Chr is_word)) y1
               (fun y => matcher token (lit "." >> Star (Chr is_word) >> Eoi)
                           (set_capture 1 (0, endIndex y) y) accept))
          = Some (set_capture 1 (0, length q)
                    (mkState (length token) (fun _ => None)))).
  destruct (token_lookup_q 0 Hq) as (c0 & Hc0 & Hw0).
  rewrite (matcher_Chr_here _ _ _ _ c0 Hc0 Hw0).
  apply matcher_Star_Chr_first.
  replace (run_end is_word token 1) with (length q).
  2:{ symmetry. replace (length q) with (1 + (length q - 1)) at 1 by lia.
      apply run_end_exact.
      - intros k Hk. apply token_lookup_q. lia.
      - replace (1 + (length q - 1)) with (length q) by lia.
        rewrite token_lookup_dot. reflexivity. }
  cbn [endIndex].
  set (caps := captures (set_capture 1 (0, length q)
                           (mkState (length q) (fun _ => None)))).
  change (matcher token (Chr (N.eqb (chr "."))) (mkState (length q) caps)
            (fun y2 => matcher token (Star (Chr is_word)) y2
               (fun y3 => matcher token Eoi y3 accept))
          = Some (mkState (length token) caps)).
  rewrite (matcher_Chr_here _ _ _ _ _ token_lookup_dot (N.eqb_refl _)).
  apply matcher_Star_Chr_first.
  replace (run_end is_word token (S (length q))) with (length token).
  2:{ symmetry. rewrite Hlen.
      replace (length q + S (length after))
        with (S (length q) + length after) by lia.
      apply run_end_exact.
      - intros k Hk. apply token_lookup_after. lia.
      - rewrite (proj2 (lookup_ge_None token _)) by lia. exact I. }
  cbn [matcher endIndex]. rewrite Nat.eqb_refl. reflexivity.
Qed.

Lemma before_dot_qualifier : lastTokenBeforeDot_of token = Some q.
Proof.
  unfold lastTokenBeforeDot_of, exec_group1, exec.
  rewrite (proj2 (Nat.ltb_ge (length token) 0)) by lia.
  cbn [search]. rewrite before_dot_match.
  unfold group. cbn [snd captures set_capture Nat.eqb].
  rewrite substring_from_0. unfold token.
  rewrite take_app_length. reflexivity.
Qed.

End QualifierComplete.

Section LastToken.

Lemma dropWhile_app_stop {A} (p : A -> bool) l w :
  match w with a :: _ => p a = false | [] => True end ->
  dropWhile p (l ++ w) = dropWhile p l ++ w.
Proof.
  intros Hw. induction l as [|b l IH]; cbn.
  - destruct w as [|a w]; [reflexivity|]. cbn. rewrite Hw. reflexivity.
  - destruct (p b); [exact IH|reflexivity].
Qed.

Lemma takeWhile_app_stop {A} (p : A -> bool) w l :
  Forall (fun a => p a = true) w ->
  match l with a :: _ => p a = false | [] => True end ->
  takeWhile p (w ++ l) = w.
Proof.
  intros Hw Hl. induction Hw as [|a w Ha Hw IH]; cbn.
  - destruct l as [|a l]; [reflexivity|]. cbn. rewrite Hl. reflexivity.
  - rewrite Ha, IH. reflexivity.
Qed.

(** A suffix of [l] that is empty or ends like [l]. *)
Lemma dropWhile_ends {A} (p : A -> bool) l x :
  dropWhile p (l ++ [x]) = []
  \/ exists l', dropWhile p (l ++ [x]) = l' ++ [x].
Proof.
  induction l as [|b l IH]; cbn.
  - destruct (p x); [left; reflexivity|right; exists []; reflexivity].
  - destruct (p b); [exact IH|]. right. exists (b :: l). reflexivity.
Qed.

(** The token of a line prefix that ends with a word free of white space,
    standing at the start or after a space. *)
Lemma thisToken_of_last_word lead w :
  w <> [] -> Forall (fun c => is_space c = false) w ->
  lead = [] \/ (exists l, lead = l ++ [chr " "]) ->
  thisToken_of (lead ++ w) = w.
Proof.
  intros Hne Hw Hlead.
  assert (Hhead : match w with a :: _ => is_space a = false | [] => True end).
  { destruct w as [|a w']; [exact I|]. apply Forall_cons in Hw. tauto. }
  assert (Hlast : match rev w with
                  | a :: _ => is_space a = false
                  | [] => True
                  end).
  { destruct (rev w) as [|a r] eqn:E; [exact I|].
    assert (Hin : In a (rev w)) by (rewrite E; left; reflexivity).
    apply in_rev in Hin. rewrite Forall_forall in Hw.
    apply Hw. apply list_elem_of_In. exact Hin. }
  assert (Htrim : exists lead',
             trim (lead ++ w) = lead' ++ w
             /\ (lead' = [] \/ exists l, lead' = l ++ [chr " "])).
  { exists (dropWhile is_space lead). split.
    - unfold trim, trimStart, trimEnd.
      rewrite (dropWhile_app_stop _ _ _ Hhead).
      rewrite rev_app_distr.
      assert (E : dropWhile is_space (rev w ++ rev (dropWhile is_space lead))
                  = rev w ++ rev (dropWhile is_space lead)).
      { destruct (rev w) as [|a r] eqn:Er.
        - apply (f_equal (@rev N)) in Er. rewrite rev_involutive in Er.
          contradiction.
        - cbn. rewrite Hlast. reflexivity. }
      rewrite E, rev_app_distr, !rev_involutive. reflexivity.
    - destruct Hlead as [->|[l ->]]; [left; reflexivity|].
      destruct (dropWhile_ends is_space l (chr " ")) as [E|E];
        [left|right]; exact E. }
  destruct Htrim as (lead' & Htrim & Hlead').
  destruct (split_last (chr " ") (trim (lead ++ w)))
    as (pre & w0 & Hl & Hs & Hw0 & Hpre).
  rewrite (thisToken_of_split _ _ Hl).
  rewrite Htrim in Hs.
  assert (Hrev : rev w ++ rev lead' = rev w0 ++ rev pre)
    by (rewrite <- !rev_app_distr; f_equal; exact Hs).
  assert (Hp : forall v : jsstring,
             Forall (fun c => negb (N.eqb c (chr " ")) = true) (rev v)
             <-> chr " " ∉ v).
  { intros v. rewrite Forall_forall. split.
    - intros H Hin. apply list_elem_of_In, in_rev, list_elem_of_In in Hin.
      apply H in Hin. rewrite N.eqb_refl in Hin. discriminate.
    - intros H c Hc. apply negb_true_iff, N.eqb_neq. intros ->.
      apply H. apply list_elem_of_In, in_rev, list_elem_of_In. exact Hc. }
  assert (Hwsp : chr " " ∉ w).
  { intros Hin. rewrite Forall_forall in Hw. apply Hw in Hin. discriminate. }
  assert (Hstop : forall v : jsstring,
             v = [] \/ (exists l, v = l ++ [chr " "]) ->
             match rev v with
             | a :: _ => negb (N.eqb a (chr " ")) = false
             | [] => True
             end).
  { intros v [->|[l ->]]; [exact I|]. rewrite rev_app_distr. reflexivity. }
  assert (E1 := takeWhile_app_stop (fun c => negb (N.eqb c (chr " ")))
                  (rev w) (rev lead') (proj2 (Hp w) Hwsp) (Hstop _ Hlead')).
  assert (Hpre' : pre = [] \/ (exists l, pre = l ++ [chr " "]))
    by (destruct Hpre as [[H _]|[H _]]; auto).
  assert (E2 := takeWhile_app_stop (fun c => negb (N.eqb c (chr " ")))
                  (rev w0) (rev pre) (proj2 (Hp w0) Hw0) (Hstop _ Hpre')).
  rewrite Hrev in E1. rewrite E1 in E2.
  apply (f_equal (@rev N)) in E2. rewrite !rev_involutive in E2.
  symmetry. exact E2.
Qed.

End LastToken.

Section AliasMap.

Lemma Map_of_entries_snoc l k v :
  Map_of_entries (l ++ [(k, v)]) = <[k := v]> (Map_of_entries l).
Proof. unfold Map_of_entries. rewrite foldl_app. reflexivity. Qed.

Lemma alias_map_lookup refs q :
  Map_of_entries (alias_entries refs) !! q
  = table_name <$> last (filter (fun t => alias t = q) refs).
Proof.
  induction refs as [|t refs IH] using rev_ind; [reflexivity|].
  unfold alias_entries in *. rewrite map_app. cbn [List.map].
  rewrite Map_of_entries_snoc, filter_app.
  destruct (decide (alias t = q)) as [E|E].
  - rewrite E, lookup_insert_eq.
    rewrite (filter_cons_True _ t []) by exact E.
    rewrite filter_nil, last_snoc. reflexivity.
  - rewrite lookup_insert_ne by exact E.
    rewrite (filter_cons_False _ t []) by exact E.
    rewrite filter_nil, app_nil_r. exact IH.
Qed.

End AliasMap.

Section Reachable.

Lemma step_settled_only c e : settled_only c -> settled_only (step c e).
Proof.
  unfold settled_only. intros Hp.
  destruct e as [conn|value|key active| |i o]; simpl; try exact Hp.
  - unfold handleQuery. destruct (selectedConnection c) as [[|c0 cs]|];
      simpl; try exact Hp.
    apply Forall_app. split; [exact Hp|]. apply Forall_singleton. eauto.
  - destruct (inflight c !! i) as [resume|] eqn:E; [|exact Hp]. simpl.
    apply Forall_delete. exact Hp.
Qed.

Lemma run_settled_only events :
  forall c, settled_only c -> settled_only (run c events).
Proof.
  unfold run. induction events as [|e events IH]; intros c Hc; simpl;
    [exact Hc|].
  apply IH. apply step_settled_only. exact Hc.
Qed.

Lemma mount_settled_only conn initialState :
  settled_only (mount conn initialState).
Proof. constructor. Qed.

(** A property of the state that every handler keeps holds after every
    sequence of events. *)
Lemma run_keeps (P : State -> Prop) :
  (forall v s, P s -> P (setQueryText v s)) ->
  (forall t s, P s -> P (toast t s)) ->
  (forall key active s, P s -> P (fst (handleKeyDown key active s))) ->
  (forall text o s, P s -> P (handleQuery_settled text o s)) ->
  forall events c,
    settled_only c -> P (state c) -> P (state (run c events)).
Proof.
  intros Hset Htoast Hkey Hsettled. unfold run.
  induction events as [|e events IH]; intros c Hp Hs; simpl; [exact Hs|].
  apply IH; [apply step_settled_only; exact Hp|].
  destruct e as [conn|value|key active| |i o]; simpl.
  - exact Hs.
  - apply Hset. exact Hs.
  - apply Hkey. exact Hs.
  - unfold handleQuery. destruct (selectedConnection c) as [[|c0 cs]|];
      simpl; try (apply Htoast); exact Hs.
  - destruct (inflight c !! i) as [resume|] eqn:E; [|exact Hs]. simpl.
    eapply Forall_lookup_1 in Hp; [|exact E].
    destruct Hp as [text ->]. apply Hsettled. exact Hs.
Qed.

Lemma handleKeyDown_history key active s :
  queryHistory (fst (handleKeyDown key active s)) = queryHistory s.
Proof.
  unfold handleKeyDown. destruct active; [reflexivity|].
  destruct (_ && _); [reflexivity|].
  destruct (Nat.eqb _ _); reflexivity.
Qed.

Lemma handleQuery_settled_history text o s :
  queryHistory (handleQuery_settled text o s)
  = match o with
    | Fulfilled _ => if nonblank text then queryHistory s ++ [text]
                     else queryHistory s
    | Rejected _ => queryHistory s
    end.
Proof.
  unfold handleQuery_settled, nonblank. destruct o as [r|err]; [|reflexivity].
  destruct (truthy _); reflexivity.
Qed.

Lemma up_step s :
  cursor_valid s -> queryHistory s <> [] ->
  let s' := fst (handleKeyDown (str "ArrowUp") false s) in
  let i' := Z.min (historyIndex s + 1)
                  (Z.of_nat (length (queryHistory s)) - 1) in
  historyIndex s' = i' /\ queryHistory s' = queryHistory s
  /\ Some (queryText s') = recalled (queryHistory s) i'
  /\ results s' = results s /\ toasts s' = toasts s.
Proof.
  intros Hs Hne s' i'. subst s'. unfold handleKeyDown.
  change (bool_decide (str "ArrowUp" = str "ArrowUp")) with true.
  change (bool_decide (str "ArrowUp" = str "ArrowDown")) with false.
  cbn [negb andb].
  destruct (Nat.eqb_spec (length (queryHistory s)) 0) as [E|E].
  { destruct (queryHistory s); [congruence|discriminate]. }
  cbn [fst setQueryText setHistoryIndex historyIndex queryHistory queryText
       results toasts].
  fold i'. unfold cursor_valid in Hs.
  split; [reflexivity|]. split; [reflexivity|]. split; [|split; reflexivity].
  destruct (Z.eqb_spec i' (-1)) as [E'|E']; [lia|].
  unfold recalled.
  destruct (handleKeyDown_read_defined s i' Hs (or_introl eq_refl) E')
    as [q Hq].
  rewrite Hq. reflexivity.
Qed.

End Reachable.

Section Loaders.
Context {TableInfo : Type}.
Import Metadata.

Lemma connection_effect_state (c : Metadata.Component TableInfo) :
  Metadata.state (connection_effect c) = Metadata.state c.
Proof.
  unfold connection_effect, start_info, start_tables, loadTables,
    loadTableInfo.
  destruct (Metadata.selectedConnection c) as [[|x xs]|]; reflexivity.
Qed.

Lemma connection_effect_loaders (c : Metadata.Component TableInfo) :
  loaders_only c -> loaders_only (connection_effect c).
Proof.
  unfold loaders_only, connection_effect, start_info, start_tables,
    loadTables, loadTableInfo.
  intros [H1 H2].
  destruct (Metadata.selectedConnection c) as [[|x xs]|]; cbn;
    try (split; assumption).
  split; apply Forall_app; (split; [assumption|]);
    apply Forall_singleton; reflexivity.
Qed.

Lemma step_loaders (c : Metadata.Component TableInfo) e :
  loaders_only c -> loaders_only (Metadata.step c e).
Proof.
  intros H. destruct e as [conn|i o|i o]; cbn [Metadata.step].
  - destruct (bool_decide _); [exact H|].
    apply connection_effect_loaders. exact H.
  - destruct (tableCalls c !! i) as [[conn resume]|]; [|exact H].
    destruct H as [H1 H2]. split; cbn; [apply Forall_delete|]; assumption.
  - destruct (infoCalls c !! i) as [[conn resume]|]; [|exact H].
    destruct H as [H1 H2]. split; cbn; [|apply Forall_delete]; assumption.
Qed.

Lemma mount_loaders conn :
  loaders_only (Metadata.mount (TableInfo := TableInfo) conn).
Proof.
  apply connection_effect_loaders. split; constructor.
Qed.

Lemma run_loaders events : forall (c : Metadata.Component TableInfo),
  loaders_only c -> loaders_only (Metadata.run c events).
Proof.
  unfold Metadata.run.
  induction events as [|e events IH]; intros c Hc; cbn [foldl]; [exact Hc|].
  apply IH. apply step_loaders. exact Hc.
Qed.

(** What one event does to the two lists. *)
Lemma step_lists (c : Metadata.Component TableInfo) e :
  loaders_only c ->
  tables (Metadata.state (Metadata.step c e))
  = match e with
    | TablesSettle i (Resolved l) =>
        match tableCalls c !! i with
        | Some _ => l
        | None => tables (Metadata.state c)
        end
    | _ => tables (Metadata.state c)
    end
  /\ tableInfo (Metadata.state (Metadata.step c e))
     = match e with
       | InfoSettle i (Resolved l) =>
           match infoCalls c !! i with
           | Some _ => l
           | None => tableInfo (Metadata.state c)
           end
       | _ => tableInfo (Metadata.state c)
       end.
Proof.
  intros [H1 H2]. destruct e as [conn|i o|i o]; cbn [Metadata.step].
  - destruct (bool_decide _); [split; reflexivity|].
    rewrite connection_effect_state. split; reflexivity.
  - destruct (tableCalls c !! i) as [[conn resume]|] eqn:E.
    + eapply Forall_lookup_1 in H1; [|exact E]. cbn in H1. subst resume.
      destruct o as [l|err]; split; reflexivity.
    + destruct o as [l|err]; split; reflexivity.
  - destruct (infoCalls c !! i) as [[conn resume]|] eqn:E.
    + eapply Forall_lookup_1 in H2; [|exact E]. cbn in H2. subst resume.
      destruct o as [l|err]; split; reflexivity.
    + destruct o as [l|err]; split; reflexivity.
Qed.

(** The lists after some events are those of before or a settled answer. *)
Lemma run_lists events : forall (c : Metadata.Component TableInfo),
  loaders_only c ->
  (tables (Metadata.state (Metadata.run c events))
   = tables (Metadata.state c)
   \/ exists i l, TablesSettle i (Resolved l) ∈ events
                  /\ tables (Metadata.state (Metadata.run c events)) = l)
  /\ (tableInfo (Metadata.state (Metadata.run c events))
      = tableInfo (Metadata.state c)
      \/ exists i l, InfoSettle i (Resolved l) ∈ events
                     /\ tableInfo (Metadata.state (Metadata.run c events))
                        = l).
Proof.
  unfold Metadata.run.
  induction events as [|e events IH]; intros c Hc; cbn [foldl].
  { split; left; reflexivity. }
  destruct (IH (Metadata.step c e) (step_loaders c e Hc)) as [IH1 IH2].
  assert (Hstep :
    (tables (Metadata.state (Metadata.step c e)) = tables (Metadata.state c)
     \/ exists i l, e = TablesSettle i (Resolved l)
          /\ tables (Metadata.state (Metadata.step c e)) = l)
    /\ (tableInfo (Metadata.state (Metadata.step c e))
        = tableInfo (Metadata.state c)
        \/ exists i l, e = InfoSettle i (Resolved l)
             /\ tableInfo (Metadata.state (Metadata.step c e)) = l)).
  { destruct Hc as [H1 H2].
    destruct e as [conn|i o|i o]; cbn [Metadata.step].
    - destruct (bool_decide _); [split; left; reflexivity|].
      rewrite connection_effect_state. split; left; reflexivity.
    - destruct (tableCalls c !! i) as [[conn resume]|] eqn:E;
        [|split; left; reflexivity].
      eapply Forall_lookup_1 in H1; [|exact E]. cbn in H1. subst resume.
      destruct o as [l|err]; cbn; [|split; left; reflexivity].
      split; [right; eauto|left; reflexivity].
    - destruct (infoCalls c !! i) as [[conn resume]|] eqn:E;
        [|split; left; reflexivity].
      eapply Forall_lookup_1 in H2; [|exact E]. cbn in H2. subst resume.
      destruct o as [l|err]; cbn; [|split; left; reflexivity].
      split; [left; reflexivity|right; eauto]. }
  destruct Hstep as [S1 S2]. split.
  - destruct IH1 as [IH1|(i & l & Hin & IH1)].
    + destruct S1 as [S1|(i & l & -> & S1)]; [left; congruence|].
      right. exists i, l. split; [apply list_elem_of_here|congruence].
    + right. exists i, l. split; [apply list_elem_of_further; exact Hin|].
      exact IH1.
  - destruct IH2 as [IH2|(i & l & Hin & IH2)].
    + destruct S2 as [S2|(i & l & -> & S2)]; [left; congruence|].
      right. exists i, l. split; [apply list_elem_of_here|congruence].
    + right. exists i, l. split; [apply list_elem_of_further; exact Hin|].
      exact IH2.
Qed.

End Loaders.

(** * Further properties *)

(** X1. Every table name returned by the scan is a non-empty run of code
    units that are neither white space nor a dot, or two such runs joined
    by one dot. *)
Theorem table_names_are_dotted_names (sql : jsstring) :
  exists tables,
    parseSqlAndFindTableNameAndAliases sql = Some tables
    /\ Forall (fun t =>
         exists first rest,
           table_name t = first ++ rest /\ plain_part first
           /\ (rest = []
               \/ exists second,
                    rest = chr "." :: second /\ plain_part second))
       tables.
Proof.
  destruct (parse_total sql) as (tables & Hp & _).
  exists tables. split; [exact Hp|].
  destruct (parse_entries sql tables Hp) as (segs & Hent & Hsp).
  assert (Hin : Forall2 (fun t seg => entry sql t seg /\ snd seg <= length sql)
                        tables segs).
  { clear Hp. revert Hsp. generalize 0.
    induction Hent as [|t [a b] tables segs Ht Hent IH]; intros lo Hsp;
      constructor.
    - cbn in Hsp. split; [exact Ht|]. cbn. lia.
    - cbn in Hsp. apply (IH b). tauto. }
  eapply Forall2_Forall_l; [exact Hin|].
  intros t [a b] [(Hname & Hmat & _) Hb]. cbn [fst snd] in *.
  rewrite Hname. apply table_inner_shape; assumption.
Qed.

(** X2. Every alias returned by the scan is non-empty; it is the table name
    itself, or a second identifier without white space and without comma
    in which none of on, where, inner, left, right, join occurs in lower
    case. *)
Theorem aliases_are_names_or_unreserved (sql : jsstring) :
  exists tables,
    parseSqlAndFindTableNameAndAliases sql = Some tables
    /\ Forall (fun t =>
         alias t <> []
         /\ (alias t = table_name t
             \/ (Forall (fun c => is_space c = false /\ c <> chr ",")
                        (alias t)
                 /\ forall w, w ∈ reserved_words ->
                              ~ occurs_in (str w) (alias t))))
       tables.
Proof.
  destruct (parse_total sql) as (tables & Hp & Hcall).
  exists tables. split; [exact Hp|].
  destruct (parse_entries sql tables Hp) as (segs & Hent & _).
  assert (Hok : Forall alias_ok tables).
  { eapply Forall2_Forall_l; [exact Hent|]. intros t seg (_ & _ & H).
    exact H. }
  clear Hent Hp. induction Hok as [|t tables Ht Hok IH]; [constructor|].
  apply Forall_cons in Hcall as [Hc Hcall].
  constructor; [|apply IH; exact Hcall].
  destruct Hc as (_ & a & b & (li & m & _ & _ & Hname) & Hab & _).
  assert (Hne : table_name t <> []).
  { intros E. rewrite E in Hname. apply (f_equal length) in Hname.
    rewrite substring_length in Hname by lia. simpl in Hname. lia. }
  destruct Ht as [Heq|(Hne' & Hall & Htest)].
  - split; [congruence|left; exact Heq].
  - split; [exact Hne'|]. right. split; [exact Hall|].
    intros w Hw Hocc.
    rewrite (test_reserved_occurs _ w Hw Hocc) in Htest. discriminate.
Qed.

(** X3. The references come in the order of the text: each table name is a
    segment of the text that starts at least five code units after the
    start of the text or after the end of the segment before, so there are
    at most a sixth as many references as code units. *)
Theorem references_follow_the_text (sql : jsstring) :
  exists tables segs,
    parseSqlAndFindTableNameAndAliases sql = Some tables
    /\ Forall2 (fun t seg =>
                  table_name t = substring (fst seg) (snd seg) sql)
               tables segs
    /\ spaced (length sql) 0 segs
    /\ 6 * length tables <= length sql.
Proof.
  destruct (parse_total sql) as (tables & Hp & _).
  destruct (parse_entries sql tables Hp) as (segs & Hent & Hsp).
  exists tables, segs. split; [exact Hp|]. split; [|split; [exact Hsp|]].
  - eapply Forall2_impl; [exact Hent|]. intros t seg (H & _). exact H.
  - rewrite (Forall2_length _ _ _ Hent).
    destruct (spaced_count _ _ _ Hsp) as [H| ->]; simpl; lia.
Qed.

(** X4. A text without any of the letters F, f, J, j has no reference. *)
Theorem no_keyword_letter_no_reference (sql : jsstring) :
  Forall (fun c => c <> chr "F" /\ c <> chr "f" /\ c <> chr "J"
                   /\ c <> chr "j") sql ->
  parseSqlAndFindTableNameAndAliases sql = Some [].
Proof.
  intros Hall. unfold parseSqlAndFindTableNameAndAliases. cbn [scan_loop].
  assert (E : exec from_join_regex sql 0 = None).
  { unfold exec. destruct (Nat.ltb _ _); [reflexivity|].
    apply search_none. intros j.
    destruct (matcher sql from_join_regex (initial j) accept) as [z|] eqn:E;
      [|reflexivity].
    apply from_join_starts_with_letter in E as (ch & Hch & Hcases).
    apply list_elem_of_lookup_2 in Hch.
    rewrite Forall_forall in Hall. apply Hall in Hch. tauto. }
  rewrite E. reflexivity.
Qed.

(** X4 at a concrete input. *)
Lemma no_keyword_letter_no_reference_witness :
  Forall (fun c => c <> chr "F" /\ c <> chr "f" /\ c <> chr "J"
                   /\ c <> chr "j") (str "SELECT 1")
  /\ parseSqlAndFindTableNameAndAliases (str "SELECT 1") = Some [].
Proof.
  assert (H : Forall (fun c => c <> chr "F" /\ c <> chr "f" /\ c <> chr "J"
                               /\ c <> chr "j") (str "SELECT 1")).
  { repeat constructor; discriminate. }
  split; [exact H|].
  apply (no_keyword_letter_no_reference (str "SELECT 1") H).
Defined.

(** X5. The alias map of the provider sends an alias to the table of the
    last reference that has this alias, and to nothing when no reference
    has it; a non-empty qualifier resolves to what the map holds for
    it. *)
Theorem alias_map_last_reference_wins (model : ITextModel)
        (position : Position) :
  exists refs log suggestions,
    parseSqlAndFindTableNameAndAliases (getValue model) = Some refs
    /\ provideCompletionItems model position = Some (log, suggestions)
    /\ (forall q,
          log_tableNamesAndAliases log !! q
          = table_name <$> last (filter (fun t => alias t = q) refs))
    /\ (forall c q,
          resolve_table (log_tableNamesAndAliases log) (Some (c :: q))
          = log_tableNamesAndAliases log !! (c :: q)).
Proof.
  unfold provideCompletionItems.
  destruct (parse_total (getValue model)) as (refs & Hp & Hcall).
  rewrite Hp. exists refs. eexists. eexists.
  split; [reflexivity|]. split; [reflexivity|].
  cbn [log_tableNamesAndAliases]. fold (alias_entries refs).
  split; [apply alias_map_lookup|].
  intros c q. unfold resolve_table. rewrite alias_map_lookup.
  destruct (last (filter (fun t => alias t = c :: q) refs)) as [t|] eqn:E;
    [|reflexivity].
  cbn [fmap option_fmap option_map truthy].
  assert (Hin : t ∈ refs).
  { apply last_Some in E as [l' E].
    assert (t ∈ filter (fun t => alias t = c :: q) refs)
      by (rewrite E; apply elem_of_app; right; apply list_elem_of_here).
    apply list_elem_of_filter in H. tauto. }
  rewrite Forall_forall in Hcall. apply Hcall in Hin.
  destruct Hin as (_ & a & b & (li & m & _ & _ & Hname) & Hab & _).
  destruct (table_name t) as [|x xs] eqn:En; [|reflexivity].
  apply (f_equal length) in Hname. unfold substring in Hname.
  rewrite length_take, length_drop in Hname. simpl in Hname. lia.
Qed.

(** X6. A qualifier found in a token is a non-empty run of word characters
    that a dot follows in the token, after which only word characters
    stand up to the end of the token. *)
Theorem qualifier_precedes_last_dot (thisToken q : jsstring) :
  lastTokenBeforeDot_of thisToken = Some q ->
  q <> [] /\ Forall (fun c => is_word c = true) q
  /\ exists before after,
       thisToken = before ++ q ++ chr "." :: after
       /\ Forall (fun c => is_word c = true) after.
Proof.
  unfold lastTokenBeforeDot_of, exec_group1. intros H.
  destruct (exec before_dot_regex thisToken 0) as [m|] eqn:E;
    [|discriminate].
  apply exec_inv in E as [Hi E]. destruct m as [i z]. cbn [fst snd] in *.
  unfold before_dot_regex in E.
  change (matcher thisToken (Group 1 (Plus (Chr is_word))) (initial i)
            (fun y => matcher thisToken
                        (lit "." >> Star (Chr is_word) >> Eoi) y accept)
          = Some z) in E.
  apply matcher_Group_sound in E as (y1 & E & Hm1 & Hle1 & _);
    [|cbn; lia].
  apply matcher_sound in E as (y3 & E & Hm3 & Hle3 & Hf3); [|cbn; lia].
  inversion E; subst y3. clear E.
  cbn [endIndex initial set_capture] in Hm1, Hm3.
  unfold group in H. cbn [snd] in H.
  rewrite (frame_nil _ _ 1 Hf3) in H. cbn in H.
  inversion H; subst q. clear H.
  apply matches_Plus_Chr in Hm1 as [Hlt Hall].
  inversion Hm3; subst. clear Hm3.
  match goal with
  | H1 : matches _ (lit _) _ _, H2 : matches _ (Seq (Star _) _) _ _ |- _ =>
      unfold lit in H1; inversion H1; subst; clear H1;
      inversion H2; subst; clear H2
  end.
  match goal with
  | H1 : matches _ (Star _) _ _, H2 : matches _ Eoi _ _ |- _ =>
      inversion H2; subst; clear H2;
      pose proof (matches_le _ _ _ _ H1) as Hle;
      pose proof (matches_Star_Chr _ _ _ _ H1) as Hall'
  end.
  match goal with H : N.eqb _ _ = true |- _ => apply N.eqb_eq in H end.
  subst.
  split.
  { intros E. apply (f_equal length) in E.
    rewrite substring_length in E by lia. simpl in E. lia. }
  split; [apply substring_Forall; exact Hall|].
  exists (substring 0 i thisToken),
         (substring (S (endIndex y1)) (length thisToken) thisToken).
  split; [|apply substring_Forall; exact Hall'].
  match goal with H : thisToken !! endIndex y1 = Some ?d |- _ =>
    change (chr ".") with d;
    rewrite <- (substring_all thisToken) at 1;
    rewrite (substring_app thisToken 0 i (length thisToken)) by lia;
    rewrite (substring_app thisToken i (endIndex y1) (length thisToken))
      by lia;
    rewrite (substring_app thisToken (endIndex y1) (S (endIndex y1))
                           (length thisToken)) by lia;
    rewrite (substring_one thisToken _ _ H)
  end.
  reflexivity.
Qed.

(** X6 at a concrete input. *)
Lemma qualifier_precedes_last_dot_witness :
  lastTokenBeforeDot_of (str "a.b.c") = Some (str "b")
  /\ exists before after,
       str "a.b.c" = before ++ str "b" ++ chr "." :: after
       /\ Forall (fun c => is_word c = true) after.
Proof.
  assert (H : lastTokenBeforeDot_of (str "a.b.c") = Some (str "b"))
    by (vm_compute; reflexivity).
  split; [exact H|].
  apply (qualifier_precedes_last_dot (str "a.b.c") (str "b") H).
Defined.

(** X7. The token made of a non-empty run of word characters, a dot and a
    possibly empty run of word characters has the first run as its
    qualifier. *)
Theorem qualifier_of_dotted_token (q after : jsstring) :
  q <> [] ->
  Forall (fun c => is_word c = true) q ->
  Forall (fun c => is_word c = true) after ->
  lastTokenBeforeDot_of (q ++ chr "." :: after) = Some q.
Proof.
  intros Hne Hq Hafter.
  assert (Hdot : is_word (chr ".") = false) by reflexivity.
  pose proof (before_dot_qualifier q after Hne Hq Hafter) as H.
  cbv zeta in H. exact H.
Qed.

(** X7 at a concrete input. *)
Lemma qualifier_of_dotted_token_witness :
  str "c" <> []
  /\ Forall (fun c => is_word c = true) (str "c")
  /\ Forall (fun c => is_word c = true) (str "na")
  /\ lastTokenBeforeDot_of (str "c.na") = Some (str "c").
Proof.
  assert (H1 : str "c" <> []) by discriminate.
  assert (H2 : Forall (fun c => is_word c = true) (str "c"))
    by (repeat constructor).
  assert (H3 : Forall (fun c => is_word c = true) (str "na"))
    by (repeat constructor).
  split; [exact H1|]. split; [exact H2|]. split; [exact H3|].
  apply (qualifier_of_dotted_token (str "c") (str "na") H1 H2 H3).
Defined.

(** X8. When the line up to the cursor ends with a dotted name [q.after]
    that stands at the start of the line or after a space, the provider
    finds the token [q.after] and the qualifier [q]. *)
Theorem provider_finds_qualifier (model : ITextModel) (position : Position)
        (lead q after : jsstring) :
  getValueInRange model
    (mkRange (lineNumber position) 1 (lineNumber position) (column position))
  = lead ++ q ++ chr "." :: after ->
  lead = [] \/ (exists l, lead = l ++ [chr " "]) ->
  q <> [] ->
  Forall (fun c => is_word c = true) q ->
  Forall (fun c => is_word c = true) after ->
  exists log suggestions,
    provideCompletionItems model position = Some (log, suggestions)
    /\ log_thisToken log = q ++ chr "." :: after
    /\ log_lastTokenBeforeDot log = Some q.
Proof.
  intros Hline Hlead Hne Hq Hafter.
  unfold provideCompletionItems.
  destruct (parse_total (getValue model)) as (refs & Hp & _).
  rewrite Hp. eexists. eexists. split; [reflexivity|].
  cbn [log_thisToken log_lastTokenBeforeDot]. rewrite Hline.
  assert (Hword : forall c, is_word c = true -> is_space c = false).
  { intros c Hc. unfold is_word in Hc. unfold is_space.
    repeat (apply orb_true_iff in Hc as [Hc|Hc]);
      repeat (apply andb_true_iff in Hc as [? ?]);
      repeat match goal with
             | H : (_ <=? _)%N = true |- _ => apply N.leb_le in H
             | H : (_ =? _)%N = true |- _ => apply N.eqb_eq in H
             end;
      repeat (apply orb_false_iff; split);
      try (apply andb_false_iff);
      try (apply N.eqb_neq; lia);
      try (left; apply N.leb_gt; lia);
      try (right; apply N.leb_gt; lia). }
  rewrite thisToken_of_last_word; [| |  |exact Hlead].
  - split; [reflexivity|].
    apply (before_dot_qualifier q after Hne Hq Hafter).
  - destruct q; [congruence|discriminate].
  - apply Forall_app. split.
    + eapply Forall_impl; [exact Hq|]. exact Hword.
    + constructor; [reflexivity|].
      eapply Forall_impl; [exact Hafter|]. exact Hword.
Qed.

(** X8 at a concrete input. *)
Lemma provider_finds_qualifier_witness :
  exists log suggestions,
    provideCompletionItems example_model example_position
    = Some (log, suggestions)
    /\ log_thisToken log = str "c."
    /\ log_lastTokenBeforeDot log = Some (str "c").
Proof.
  apply (provider_finds_qualifier example_model example_position
           (str "SELECT ") (str "c") []).
  - reflexivity.
  - right. exists (str "SELECT"). reflexivity.
  - discriminate.
  - repeat constructor.
  - constructor.
Defined.

(** X9. The history only grows: what it holds after some events is a prefix
    of what it holds after any further events. *)
Theorem history_append_only conn initialState (before after : list Event) :
  queryHistory (state (run (mount conn initialState) before))
  `prefix_of`
  queryHistory (state (run (mount conn initialState) (before ++ after))).
Proof.
  unfold run. rewrite foldl_app. fold (run (mount conn initialState) before).
  set (c := run (mount conn initialState) before).
  apply (run_keeps
           (fun s => queryHistory (state c) `prefix_of` queryHistory s)).
  - intros v s H. exact H.
  - intros t s H. exact H.
  - intros key active s H. rewrite handleKeyDown_history. exact H.
  - intros text o s H. rewrite handleQuery_settled_history.
    destruct o; [|exact H]. destruct (nonblank text); [|exact H].
    apply prefix_app_r. exact H.
  - apply run_settled_only, mount_settled_only.
  - reflexivity.
Qed.

(** X10. No entry of the history is blank, whatever the events. *)
Theorem history_entries_not_blank conn initialState (events : list Event) :
  Forall (fun q => trim q <> [] /\ blank q = false)
         (queryHistory (state (run (mount conn initialState) events))).
Proof.
  apply (run_keeps (fun s => Forall (fun q => trim q <> [] /\ blank q = false)
                                    (queryHistory s))).
  - intros v s H. exact H.
  - intros t s H. exact H.
  - intros key active s H. rewrite handleKeyDown_history. exact H.
  - intros text o s H. rewrite handleQuery_settled_history.
    destruct o; [|exact H]. destruct (nonblank text) eqn:E; [|exact H].
    apply Forall_app. split; [exact H|]. apply Forall_singleton.
    unfold nonblank in E.
    assert (Hne : trim text <> [])
      by (intros E'; rewrite E' in E; discriminate).
    split; [exact Hne|].
    destruct (blank text) eqn:Hb; [|reflexivity].
    apply trim_nil_iff in Hb. contradiction.
  - apply mount_settled_only.
  - destruct initialState as [[text res]|]; constructor.
Qed.

(** X11. From the live buffer, n+1 presses of ArrowUp show the entry n places
    before the newest, or the oldest entry when the history is shorter;
    the history itself is untouched. *)
Theorem arrow_up_recalls_nth (s : State) (n : nat) :
  historyIndex s = (-1)%Z -> queryHistory s <> [] ->
  let s' := press (str "ArrowUp") (S n) s in
  let i := Nat.min n (length (queryHistory s) - 1) in
  historyIndex s' = Z.of_nat i
  /\ queryHistory s' = queryHistory s
  /\ queryHistory s !! (length (queryHistory s) - 1 - i)
     = Some (queryText s').
Proof.
  intros Hi Hne. cbv zeta.
  assert (Hlen : 0 < length (queryHistory s))
    by (destruct (queryHistory s); [congruence|simpl; lia]).
  assert (Hstep : forall t k,
    cursor_valid t -> queryHistory t = queryHistory s ->
    historyIndex t = (Z.of_nat k - 1)%Z ->
    let t' := fst (handleKeyDown (str "ArrowUp") false t) in
    let i := Nat.min k (length (queryHistory s) - 1) in
    historyIndex t' = Z.of_nat i /\ queryHistory t' = queryHistory s
    /\ queryHistory s !! (length (queryHistory s) - 1 - i)
       = Some (queryText t')).
  { intros t k Ht Hh Hk. cbv zeta.
    destruct (up_step t Ht) as (G1 & G2 & G3 & _); [congruence|].
    cbv zeta in G1, G3. rewrite Hh, Hk in G1, G3.
    split; [rewrite G1; lia|]. split; [congruence|].
    unfold recalled, at_index in G3.
    match type of G3 with context [Z.ltb ?a 0] =>
      destruct (Z.ltb_spec a 0); [lia|] end.
    rewrite G3. f_equal. lia. }
  induction n as [|n IH].
  - change (press (str "ArrowUp") 1 s)
      with (fst (handleKeyDown (str "ArrowUp") false s)).
    apply (Hstep s 0); [unfold cursor_valid; lia|reflexivity|lia].
  - destruct IH as (H1 & H2 & H3).
    change (press (str "ArrowUp") (S (S n)) s)
      with (fst (handleKeyDown (str "ArrowUp") false
                               (press (str "ArrowUp") (S n) s))).
    set (t := press (str "ArrowUp") (S n) s) in *.
    destruct (le_lt_dec (length (queryHistory s) - 1) n) as [Hge|Hlt].
    + destruct (Hstep t (length (queryHistory s)))
        as (G1 & G2 & G3);
        [unfold cursor_valid; rewrite H1, H2; lia|exact H2|lia|].
      cbv zeta in *.
      replace (Nat.min (S n) (length (queryHistory s) - 1))
        with (Nat.min (length (queryHistory s)) (length (queryHistory s) - 1))
        by lia.
      auto.
    + destruct (Hstep t (S n))
        as (G1 & G2 & G3);
        [unfold cursor_valid; rewrite H1, H2; lia|exact H2|lia|].
      auto.
Qed.

(** X11 at a concrete input. *)
Lemma arrow_up_recalls_nth_witness :
  [str "A"; str "B"; str "C"] !! 1
  = Some (queryText (press (str "ArrowUp") 2
                           (mkQState [] None [str "A"; str "B"; str "C"]
                                     (-1) []))).
Proof.
  apply (arrow_up_recalls_nth
           (mkQState [] None [str "A"; str "B"; str "C"] (-1) []) 1);
    [reflexivity|discriminate].
Defined.

(** X12. ArrowUp then ArrowDown from the live buffer ends with an empty
    buffer: the text that was being edited is not restored. *)
Theorem recall_round_trip_clears_draft (s : State) :
  historyIndex s = (-1)%Z -> queryHistory s <> [] ->
  let s' := press (str "ArrowDown") 1 (press (str "ArrowUp") 1 s) in
  historyIndex s' = (-1)%Z /\ queryText s' = []
  /\ queryHistory s' = queryHistory s.
Proof.
  intros Hi Hne. cbv zeta.
  change (press (str "ArrowDown") 1 (press (str "ArrowUp") 1 s))
    with (fst (handleKeyDown (str "ArrowDown") false
                 (fst (handleKeyDown (str "ArrowUp") false s)))).
  destruct (up_step s) as (H1 & H2 & _);
    [unfold cursor_valid; lia|exact Hne|].
  cbv zeta in H1.
  set (t := fst (handleKeyDown (str "ArrowUp") false s)) in *.
  assert (Hlen : 0 < length (queryHistory s))
    by (destruct (queryHistory s); [congruence|simpl; lia]).
  assert (Ht : historyIndex t = 0%Z) by lia.
  unfold handleKeyDown.
  change (bool_decide (str "ArrowDown" = str "ArrowUp")) with false.
  change (bool_decide (str "ArrowDown" = str "ArrowDown")) with true.
  cbn [negb andb]. rewrite H2.
  destruct (Nat.eqb_spec (length (queryHistory s)) 0) as [E|E]; [lia|].
  cbn [fst setQueryText setHistoryIndex historyIndex queryHistory queryText].
  rewrite Ht. cbn. rewrite H2. auto.
Qed.

(** X12 at a concrete input. *)
Lemma recall_round_trip_clears_draft_witness :
  queryText (press (str "ArrowDown") 1
               (press (str "ArrowUp") 1
                  (mkQState (str "draft") None [str "A"] (-1) []))) = [].
Proof.
  apply (recall_round_trip_clears_draft
           (mkQState (str "draft") None [str "A"] (-1) []));
    [reflexivity|discriminate].
Defined.

(** X13. A run records the text of the moment of the click: when the buffer
    is edited while the call is pending, the result is stored, the edit
    stays in the buffer, and the history receives the text of the click
    (when it is not blank). *)
Theorem run_records_text_at_click (c0 : char) (cs : jsstring) (s : State)
        (pending : list (Outcome -> State -> State)) (edited : jsstring)
        (r : QueryResult) :
  let c := mkComponent (Some (c0 :: cs)) s pending in
  let c' := run c [Click; Change edited;
                   Settle (length pending) (Fulfilled r)] in
  queryText (state c') = edited
  /\ results (state c') = Some r
  /\ queryHistory (state c')
     = (if nonblank (queryText s) then queryHistory s ++ [queryText s]
        else queryHistory s)
  /\ inflight c' = pending.
Proof.
  cbv zeta. unfold run. cbn [foldl step handleQuery selectedConnection state
                             inflight].
  rewrite list_lookup_middle by reflexivity.
  cbn [state inflight selectedConnection].
  rewrite handleQuery_settled_history.
  unfold handleQuery_settled.
  split; [destruct (truthy _); reflexivity|].
  split; [destruct (truthy _); reflexivity|].
  split; [reflexivity|].
  rewrite delete_middle. apply app_nil_r.
Qed.

(** X14. Of two pending runs the one that settles last gives the stored
    result, and the history has their texts in the order they settled,
    not in the order they were started. *)
Theorem last_settled_result_wins (c0 : char) (cs : jsstring) (s : State)
        (pending : list (Outcome -> State -> State)) (second : jsstring)
        (r1 r2 : QueryResult) :
  let c := mkComponent (Some (c0 :: cs)) s pending in
  let c' := run c [Click; Change second; Click;
                   Settle (S (length pending)) (Fulfilled r2);
                   Settle (length pending) (Fulfilled r1)] in
  results (state c') = Some r1
  /\ queryHistory (state c')
     = (queryHistory s ++ (if nonblank second then [second] else []))
       ++ (if nonblank (queryText s) then [queryText s] else [])
  /\ inflight c' = pending.
Proof.
  cbv zeta. unfold run. cbn [foldl step handleQuery selectedConnection state
                             inflight setQueryText queryText].
  set (k1 := handleQuery_settled (queryText s)).
  set (k2 := handleQuery_settled second).
  assert (E2 : ((pending ++ [k1]) ++ [k2]) !! S (length pending) = Some k2).
  { rewrite lookup_app_r by (rewrite length_app; simpl; lia).
    rewrite length_app. simpl.
    replace (S (length pending) - (length pending + 1)) with 0 by lia.
    reflexivity. }
  rewrite E2. cbn [state inflight selectedConnection].
  assert (D2 : delete (S (length pending)) ((pending ++ [k1]) ++ [k2])
               = pending ++ [k1]).
  { replace (S (length pending)) with (length (pending ++ [k1]))
      by (rewrite length_app; simpl; lia).
    rewrite delete_middle. apply app_nil_r. }
  rewrite D2. rewrite list_lookup_middle by reflexivity.
  cbn [state inflight selectedConnection].
  rewrite delete_middle, app_nil_r.
  subst k1 k2. rewrite !handleQuery_settled_history.
  unfold handleQuery_settled.
  split; [destruct (truthy (Some (trim (queryText s)))); reflexivity|].
  split; [|reflexivity].
  destruct (nonblank second), (nonblank (queryText s)); cbn;
    rewrite ?app_nil_r; reflexivity.
Qed.

(** X15. Whatever the events, the table list is empty or the answer of a
    fulfilled call of ListTables, and the table info is empty or the
    answer of a fulfilled call of GetTableInfo. From there a further event
    changes the table list only when it is the fulfilled answer of a
    pending ListTables call, which replaces the list, and the table info
    only when it is the fulfilled answer of a pending GetTableInfo call: a
    failed load, a change of connection and a settle that meets no pending
    call leave both lists as they are. *)
Theorem lists_come_from_answers (TableInfo : Type) (conn : option jsstring)
        (events : list (Metadata.Event TableInfo)) :
  let c := Metadata.run (Metadata.mount conn) events in
  (Metadata.tables (Metadata.state c) = []
   \/ exists i l, Metadata.TablesSettle i (Metadata.Resolved l) ∈ events
                  /\ Metadata.tables (Metadata.state c) = l)
  /\ (Metadata.tableInfo (Metadata.state c) = []
      \/ exists i l, Metadata.InfoSettle i (Metadata.Resolved l) ∈ events
                     /\ Metadata.tableInfo (Metadata.state c) = l)
  /\ (forall e,
        Metadata.tables (Metadata.state (Metadata.step c e))
        = match e with
          | Metadata.TablesSettle i (Metadata.Resolved l) =>
              match Metadata.tableCalls c !! i with
              | Some _ => l
              | None => Metadata.tables (Metadata.state c)
              end
          | _ => Metadata.tables (Metadata.state c)
          end)
  /\ (forall e,
        Metadata.tableInfo (Metadata.state (Metadata.step c e))
        = match e with
          | Metadata.InfoSettle i (Metadata.Resolved l) =>
              match Metadata.infoCalls c !! i with
              | Some _ => l
              | None => Metadata.tableInfo (Metadata.state c)
              end
          | _ => Metadata.tableInfo (Metadata.state c)
          end)
  /\ (forall i err,
        Metadata.state (Metadata.step c (Metadata.TablesSettle i
                                           (Metadata.Failed err)))
        = Metadata.state c
        /\ Metadata.state (Metadata.step c (Metadata.InfoSettle i
                                              (Metadata.Failed err)))
           = Metadata.state c).
Proof.
  cbv zeta.
  pose proof (mount_loaders (TableInfo := TableInfo) conn) as Hm.
  pose proof (run_loaders events _ Hm) as Hc.
  destruct (run_lists events (Metadata.mount conn) Hm) as [H1 H2].
  unfold Metadata.mount in H1 at 2. unfold Metadata.mount in H2 at 2.
  rewrite connection_effect_state in H1, H2.
  split; [exact H1|]. split; [exact H2|].
  split; [intros e; apply (step_lists _ e Hc)|].
  split; [intros e; apply (step_lists _ e Hc)|].
  intros i err. destruct Hc as [Hc1 Hc2].
  set (c := Metadata.run (Metadata.mount conn) events) in *.
  split; cbn [Metadata.step].
  - destruct (Metadata.tableCalls c !! i) as [[cn resume]|] eqn:E;
      [|reflexivity].
    eapply Forall_lookup_1 in Hc1; [|exact E]. cbn in Hc1. subst resume.
    reflexivity.
  - destruct (Metadata.infoCalls c !! i) as [[cn resume]|] eqn:E;
      [|reflexivity].
    eapply Forall_lookup_1 in Hc2; [|exact E]. cbn in Hc2. subst resume.
    reflexivity.
Qed.

(** X16. When the connection changes while the table list of the earlier one
    is still loading and that answer comes last, the list shown is the
    earlier connection's although the later one is selected. *)
Theorem late_answer_replaces_tables (TableInfo : Type) (a0 b0 : char)
        (a b : jsstring) (la lb : list jsstring) :
  a0 :: a <> b0 :: b ->
  let c := Metadata.run (Metadata.mount (TableInfo := TableInfo)
                           (Some (a0 :: a)))
             [Metadata.Select (Some (b0 :: b));
              Metadata.TablesSettle 1 (Metadata.Resolved lb);
              Metadata.TablesSettle 0 (Metadata.Resolved la)] in
  Metadata.selectedConnection c = Some (b0 :: b)
  /\ Metadata.tables (Metadata.state c) = la
  /\ Metadata.tableCalls c = [].
Proof.
  intros Hne. cbv zeta.
  unfold Metadata.run, Metadata.mount. cbn.
  rewrite bool_decide_eq_false_2 by congruence.
  cbn. auto.
Qed.

(** X16 at a concrete input. *)
Lemma late_answer_replaces_tables_witness :
  str "a" <> str "b"
  /\ Metadata.tables
       (Metadata.state
          (Metadata.run (Metadata.mount (TableInfo := unit) (Some (str "a")))
             [Metadata.Select (Some (str "b"));
              Metadata.TablesSettle 1 (Metadata.Resolved [str "t_b"]);
              Metadata.TablesSettle 0 (Metadata.Resolved [str "t_a"])]))
     = [str "t_a"].
Proof.
  assert (H : str "a" <> str "b") by discriminate.
  split; [exact H|].
  apply (late_answer_replaces_tables unit _ _ [] [] [str "t_a"] [str "t_b"] H).
Defined.
